(** * Lab-1: circle area and circumference (ex1.c, ex3.c)

    The two programs read a radius in centimetres into a C [float],
    evaluate the area (and, in ex3.c, the circumference) in [double]
    arithmetic with the macros [PI] and [CM], store the results back in
    [float] variables and print them with [printf("%3.2f")].

    The embedding follows the source at that level of detail: IEEE 754
    binary32 and binary64 values are [spec_float]s, the arithmetic is the
    executable round-to-nearest-even specification of the Standard Library
    ([SFmul], [SFdiv], [binary_normalize]), standard input is a list of
    scan items, and a run is logged as the list of its prints and reads,
    from which the text on standard output is read off.

    The properties come in two layers.  The rounding performed by the
    Standard Library's operations is first bounded against exact rational
    arithmetic; the two programs are then followed through those bounds
    and through their event logs. *)

From Stdlib Require Import Morphisms ZArith QArith Qabs Qpower Bool List String Ascii.
From Stdlib Require Import Lia Lqa.
From Stdlib Require Import Floats.SpecFloat.
Import ListNotations.

Local Open Scope Z_scope.

(** ** Floating-point formats *)

Module Fmt.

(** C [float]: IEEE 754 binary32. *)
Definition prec32 : Z := 24.
Definition emax32 : Z := 128.

(** C [double]: IEEE 754 binary64. *)
Definition prec64 : Z := 53.
Definition emax64 : Z := 1024.

End Fmt.

Definition binary32 := spec_float.
Definition binary64 := spec_float.

(** Integer constant converted to [double] ([2] in [2 * PI]). *)
Definition double_of_int (n : Z) : binary64 :=
  binary_normalize Fmt.prec64 Fmt.emax64 n 0 false.

(** Integer constant converted to [float] ([0] in [r != 0]). *)
Definition float_of_int (n : Z) : binary32 :=
  binary_normalize Fmt.prec32 Fmt.emax32 n 0 false.

(** A decimal floating constant [num / den] (with [den] a power of ten),
    correctly rounded to [double]: both integers are exact in binary64
    and IEEE division rounds the quotient once. *)
Definition double_literal (num den : Z) : binary64 :=
  SFdiv Fmt.prec64 Fmt.emax64 (double_of_int num) (double_of_int den).

(** The same for a decimal input token converted by [scanf("%f")]. *)
Definition float_literal (num den : Z) : binary32 :=
  SFdiv Fmt.prec32 Fmt.emax32 (float_of_int num) (float_of_int den).

(** Implicit promotion [float -> double] (exact). *)
Definition double_of_float (x : binary32) : binary64 :=
  match x with
  | S754_finite s m e =>
      binary_normalize Fmt.prec64 Fmt.emax64 (cond_Zopp s (Zpos m)) e s
  | _ => x
  end.

(** Conversion [double -> float] on assignment (round to nearest even). *)
Definition float_of_double (x : binary64) : binary32 :=
  match x with
  | S754_finite s m e =>
      binary_normalize Fmt.prec32 Fmt.emax32 (cond_Zopp s (Zpos m)) e s
  | _ => x
  end.

Definition dmul (x y : binary64) : binary64 := SFmul Fmt.prec64 Fmt.emax64 x y.
Definition ddiv (x y : binary64) : binary64 := SFdiv Fmt.prec64 Fmt.emax64 x y.

Declare Scope dbl_scope.
Delimit Scope dbl_scope with dbl.
Infix "*" := dmul : dbl_scope.
Infix "/" := ddiv : dbl_scope.

(** [x != y] on floats: true unless the operands compare equal
    (so true when one of them is a NaN, false for [-0.0 != 0]). *)
Definition float_ne (x y : binary32) : bool :=
  negb (SFeqb x y).

(** ** The macros *)

(** [#define PI 3.14159] *)
Definition PI : binary64 := Eval vm_compute in double_literal 314159 100000.

(** [#define CM 2.54] *)
Definition CM : binary64 := Eval vm_compute in double_literal 254 100.

(** ** The two assignments *)

(** [a = PI * (r/CM) * (r/CM);]  The product associates to the left. *)
Definition area_double (r : binary32) : binary64 :=
  ((PI * (double_of_float r / CM)) * (double_of_float r / CM))%dbl.

Definition area (r : binary32) : binary32 :=
  float_of_double (area_double r).

(** [c = 2 * PI * (r/CM);] *)
Definition circumference_double (r : binary32) : binary64 :=
  ((double_of_int 2 * PI) * (double_of_float r / CM))%dbl.

Definition circumference (r : binary32) : binary32 :=
  float_of_double (circumference_double r).

(** ** Output formatting: [printf("%3.2f", x)] *)

Local Open Scope string_scope.

Definition nl : string := String (ascii_of_nat 10) "".

Definition digit_char (d : Z) : ascii :=
  ascii_of_nat (48 + Z.to_nat d).

(** Decimal digits of a non-negative integer, most significant first. *)
Fixpoint decimal_fuel (fuel : nat) (n : Z) (acc : string) : string :=
  let acc' := String (digit_char (n mod 10)) acc in
  match fuel with
  | O => acc'
  | S fuel' => if (n / 10 =? 0)%Z then acc' else decimal_fuel fuel' (n / 10) acc'
  end.

Definition decimal (n : Z) : string :=
  decimal_fuel (Z.to_nat (Z.log2 n)) n "".

(** [n / d] rounded to the nearest integer, ties to even ([0 < d]). *)
Definition round_half_even (n d : Z) : Z :=
  let q := n / d in
  match (2 * (n mod d) ?= d)%Z with
  | Lt => q
  | Gt => q + 1
  | Eq => if Z.even q then q else q + 1
  end.

(** [|m * 2^e| * 100] rounded to an integer: the value in hundredths. *)
Definition hundredths (m : positive) (e : Z) : Z :=
  match e with
  | Zneg p => round_half_even (100 * Zpos m) (2 ^ Zpos p)
  | _ => 100 * Zpos m * 2 ^ e
  end.

Definition sign_string (s : bool) : string := if s then "-" else "".

(** Fixed notation with two fractional digits of [h] hundredths. *)
Definition fixed2 (s : bool) (h : Z) : string :=
  sign_string s ++ decimal (h / 100) ++ "."
    ++ String (digit_char (h / 10 mod 10)) (String (digit_char (h mod 10)) "").

(** Conversion [%.2f] of a [double]. *)
Definition format_f2 (x : binary64) : string :=
  match x with
  | S754_nan => "nan"
  | S754_infinity s => sign_string s ++ "inf"
  | S754_zero s => fixed2 s 0
  | S754_finite s m e => fixed2 s (hundredths m e)
  end.

Fixpoint spaces (n : nat) : string :=
  match n with
  | O => ""
  | S n' => String " " (spaces n')
  end.

(** Minimum field width, right-justified. *)
Definition pad_left (width : nat) (s : string) : string :=
  spaces (width - String.length s) ++ s.

(** Conversion [%3.2f]. *)
Definition format_3_2f (x : binary64) : string :=
  pad_left 3 (format_f2 x).

(** ** Standard input and output *)

(** What the next [scanf("%f")] finds on standard input: a token that
    converts to a [float], or text that does not (it is left unread).
    The empty list is end of input. *)
Inductive scan_item : Type :=
| Num (f : binary32)
| Junk.

Inductive event : Type :=
| Printed (s : string)
| Scanned (stored : option binary32).

Record world : Type := mkWorld {
  stdin : list scan_item;
  log : list event          (* in the order performed *)
}.

Definition initial (input : list scan_item) : world :=
  mkWorld input [].

(** Text written by one event. *)
Definition event_text (ev : event) : string :=
  match ev with
  | Printed s => s
  | Scanned _ => ""
  end.

Fixpoint text_of (l : list event) : string :=
  match l with
  | [] => ""
  | ev :: l' => event_text ev ++ text_of l'
  end.

(** Everything written to standard output so far. *)
Definition stdout (w : world) : string := text_of (log w).

(** [printf(s)] for a format without conversions. *)
Definition printf0 (s : string) (w : world) : world :=
  mkWorld (stdin w) (log w ++ [Printed s]).

(** [printf(pre "%3.2f" post, x)]; the [float] argument is promoted to
    [double] by the call. *)
Definition printf_3_2f (pre post : string) (x : binary32) (w : world) : world :=
  mkWorld (stdin w)
          (log w ++ [Printed (pre ++ format_3_2f (double_of_float x) ++ post)]).

(** [scanf("%f", &r)]: the new value of [r] and the new world.  On a
    matching failure or at end of input nothing is stored and nothing is
    consumed.  The return value of [scanf] is ignored by both programs. *)
Definition scanf_f (r : binary32) (w : world) : binary32 * world :=
  match stdin w with
  | Num f :: rest => (f, mkWorld rest (log w ++ [Scanned (Some f)]))
  | _ => (r, mkWorld (stdin w) (log w ++ [Scanned None]))
  end.

Definition prompt : string := "Enter radius (in cm):" ++ nl.

(** ** ex1.c *)

(** [main] of ex1.c.  [r0] is the indeterminate value of the
    uninitialised automatic variable [r].  Control reaches the closing
    brace of [main], which returns 0. *)
Definition ex1_main (r0 : binary32) (w : world) : world * Z :=
  let r := r0 in
  let w := printf0 prompt w in
  let '(r, w) := scanf_f r w in
  let a := area r in
  let w := printf_3_2f "Circle's area is " (" (sq in)." ++ nl) a w in
  (w, 0%Z).

(** ** ex3.c *)

(** One pass through the body of the [while] loop. *)
Definition ex3_body (r : binary32) (w : world) : binary32 * world :=
  let w := printf0 prompt w in
  let '(r, w) := scanf_f r w in
  let a := area r in
  let c := circumference r in
  let w := printf_3_2f "Circle's area is " (" (sq in)." ++ nl) a w in
  let w := printf_3_2f "Its circumference is " (" (in)." ++ nl) c w in
  (r, w).

(** [while (r != 0) { ... }] with a bound on the number of condition
    checks; [None] when the bound is exhausted. *)
Fixpoint ex3_loop (fuel : nat) (r : binary32) (w : world) : option world :=
  match fuel with
  | O => None
  | S fuel' =>
      if float_ne r (float_of_int 0) then
        let '(r', w') := ex3_body r w in
        ex3_loop fuel' r' w'
      else Some w
  end.

(** [main] of ex3.c; [r0] as in [ex1_main]. *)
Definition ex3_main (fuel : nat) (r0 : binary32) (w : world) : option (world * Z) :=
  match ex3_loop fuel r0 w with
  | Some w' => Some (w', 0%Z)
  | None => None
  end.

(** ** Predicates on values and on printed text *)

(** A value that is a number: a zero or a finite non-zero float. *)
Definition is_number (x : spec_float) : bool :=
  match x with
  | S754_zero _ | S754_finite _ _ _ => true
  | _ => false
  end.

(** [0 <= x] as C evaluates it on floats. *)
Definition float_nonneg (x : binary32) : bool :=
  SFleb (float_of_int 0) x.




(** The result lines, as functions of the number text. *)
Definition area_line (num : string) : string :=
  "Circle's area is " ++ num ++ " (sq in)." ++ nl.

Definition circumference_line (num : string) : string :=
  "Its circumference is " ++ num ++ " (in)." ++ nl.

(** The text [printf("%3.2f")] produces for a [float] argument. *)
Definition shown (x : binary32) : string :=
  format_3_2f (double_of_float x).

(** The value left in [r] by the first [scanf] and what it logged. *)
Definition first_read (r0 : binary32) (input : list scan_item) : binary32 :=
  match input with
  | Num f :: _ => f
  | _ => r0
  end.

Definition first_stored (input : list scan_item) : option binary32 :=
  match input with
  | Num f :: _ => Some f
  | _ => None
  end.

(** ** Exact values *)

(** [2^e] as a rational, for any integer exponent. *)
Definition pow2 (e : Z) : Q := (2 ^ e)%Q.

(** The rational number a float denotes (0 for infinities and NaN). *)
Definition SF2Q (x : spec_float) : Q :=
  match x with
  | S754_finite s m e => (inject_Z (cond_Zopp s (Zpos m)) * pow2 e)%Q
  | _ => 0%Q
  end.

(** The macros as the decimal numbers written in the source. *)
Definition PI_decimal : Q := 314159 # 100000.
Definition CM_decimal : Q := 254 # 100.

(** The area and the circumference as the specification states them,
    over the rationals: [PI * r_in^2] and [2 * PI * r_in] with
    [r_in = r_cm / 2.54] and [PI = 3.14159]. *)
Definition exact_area (r_cm : Q) : Q :=
  (PI_decimal * (r_cm / CM_decimal) ^ 2)%Q.

Definition exact_circumference (r_cm : Q) : Q :=
  (2 * PI_decimal * (r_cm / CM_decimal))%Q.

(** [x] approximates [v] with relative error at most [eps]. *)
Definition rel_err (eps x v : Q) : Prop :=
  (Qabs (x - v) <= eps * Qabs v)%Q.

(** The radius in inches, the subexpression [(r/CM)] of both programs. *)
Definition inch_radius (r : binary32) : binary64 :=
  (double_of_float r / CM)%dbl.

(** The inverse conversion [r_in * 2.54] of the round-trip property.
    Neither program evaluates it; it is written here the way the
    programs would, in [double] with the macro [CM]. *)
Definition inches_to_cm (r_in : binary64) : binary64 :=
  (r_in * CM)%dbl.

(** The number a finite value is printed as by [%3.2f], as a rational. *)
Definition printed_value (x : binary32) : Q :=
  match double_of_float x with
  | S754_finite s m e => (cond_Zopp s (hundredths m e) # 100)%Q
  | _ => 0%Q
  end.

(** ** Vocabulary for the rounding proofs *)

(** The position of a value [w] relative to the integer mantissa of a
    shift record, as its round and sticky bits encode it: on the
    mantissa, below the midpoint, on it, or above it. *)
Definition located (mrs : shr_record) (w : Q) : Prop :=
  let m := inject_Z (shr_m mrs) in
  match shr_r mrs, shr_s mrs with
  | false, false => (w == m)%Q
  | false, true => (m < w /\ w < m + (1 # 2))%Q
  | true, false => (w == m + (1 # 2))%Q
  | true, true => (m + (1 # 2) < w /\ w < m + 1)%Q
  end.

(** The last step of [binary_round_aux]: the float made of a sign, a
    rounded mantissa and an exponent, with the overflow test. *)
Definition mk_float (prec emax : Z) (sx : bool) (m e : Z) : spec_float :=
  match m with
  | Z0 => S754_zero sx
  | Zpos p =>
      if (e <=? emax - prec)%Z then S754_finite sx p e else S754_infinity sx
  | Zneg _ => S754_nan
  end.

Definition sgnQ (s : bool) : Q := if s then (-1)%Q else 1%Q.

(** [2^lo <= |v| < 2^hi]. *)
Definition in_band (lo hi : Z) (v : Q) : Prop :=
  (pow2 lo <= Qabs v /\ Qabs v < pow2 hi)%Q.

(** A finite value with at most 24 digits and a [float] exponent: what
    [scanf] stores and what a conversion to [float] returns. *)
Definition float_sized (x : spec_float) : Prop :=
  match x with
  | S754_finite _ m e => (Zdigits2 (Zpos m) <= 24 /\ -149 <= e <= 104)%Z
  | _ => True
  end.

(** The unit roundoff of [double]. *)
Definition u64 : Q := pow2 (-53).

(** The sign bit of [x] is [s] ([false] for a NaN). *)
Definition has_sign (s : bool) (x : spec_float) : bool :=
  match x with
  | S754_zero s' | S754_infinity s' | S754_finite s' _ _ => Bool.eqb s s'
  | S754_nan => false
  end.


(** ** Vocabulary for whole runs *)

(** [r != 0] holds. *)
Definition nonzero (r : binary32) : Prop :=
  float_ne r (float_of_int 0) = true.

(** The four events of a pass of the loop of ex3.c whose read stores [r]. *)
Definition pass_events (r : binary32) : list event :=
  [Printed prompt;
   Scanned (Some r);
   Printed (area_line (shown (area r)));
   Printed (circumference_line (shown (circumference r)))].


(** * Properties *)

Local Close Scope string_scope.

(** ** Powers of two *)

Lemma two_nonzero : ~ (2 == 0)%Q.
Proof. discriminate. Qed.

Lemma pow2_pos (e : Z) : (0 < pow2 e)%Q.
Proof. unfold pow2. apply Qpower_0_lt. reflexivity. Qed.

Lemma pow2_add (a b : Z) : (pow2 (a + b) == pow2 a * pow2 b)%Q.
Proof. unfold pow2. apply Qpower_plus, two_nonzero. Qed.

Lemma pow2_le (a b : Z) : a <= b -> (pow2 a <= pow2 b)%Q.
Proof. intros H. unfold pow2. apply Qpower_le_compat_l; [exact H|discriminate]. Qed.

Lemma pow2_lt (a b : Z) : a < b -> (pow2 a < pow2 b)%Q.
Proof. intros H. unfold pow2. apply Qpower_lt_compat_l; [exact H|reflexivity]. Qed.

Lemma pow2_Z (e : Z) : 0 <= e -> (pow2 e == inject_Z (2 ^ e))%Q.
Proof.
  intros H. unfold pow2. rewrite Zpower_Qpower by exact H. reflexivity.
Qed.

Lemma pow2_succ (e : Z) : (pow2 (e + 1) == 2 * pow2 e)%Q.
Proof. rewrite pow2_add. change (pow2 1) with 2%Q. ring. Qed.

Lemma pow2_pred (e : Z) : (pow2 (e - 1) == pow2 e / 2)%Q.
Proof.
  replace e with ((e - 1) + 1) at 2 by ring. rewrite pow2_succ. field.
Qed.

Lemma pow2_opp (e : Z) : (pow2 (- e) == / pow2 e)%Q.
Proof.
  assert (H : (pow2 (- e) * pow2 e == 1)%Q).
  { rewrite <- pow2_add. replace (- e + e) with 0 by ring. reflexivity. }
  pose proof (pow2_pos e) as Hp.
  apply (Qmult_inj_r _ _ (pow2 e)); [lra|].
  rewrite H. field. lra.
Qed.

(** ** Binary digits *)

Lemma digits2_pos_size (p : positive) : digits2_pos p = Pos.size p.
Proof. induction p; simpl; congruence. Qed.

Lemma Zdigits2_log2 (m : Z) : 0 < m -> Zdigits2 m = Z.log2 m + 1.
Proof.
  destruct m as [|p|p]; try lia. intros _. simpl.
  rewrite digits2_pos_size. destruct p; simpl; lia.
Qed.

Lemma Zdigits2_nonneg (m : Z) : 0 <= Zdigits2 m.
Proof. destruct m; simpl; lia. Qed.

Lemma Zdigits2_bounds (m : Z) :
  0 < m -> 2 ^ (Zdigits2 m - 1) <= m < 2 ^ Zdigits2 m.
Proof.
  intros H. rewrite Zdigits2_log2 by exact H.
  replace (Z.log2 m + 1 - 1) with (Z.log2 m) by ring.
  replace (Z.log2 m + 1) with (Z.succ (Z.log2 m)) by ring.
  now apply Z.log2_spec.
Qed.

Lemma Zdigits2_unique (m d : Z) :
  2 ^ (d - 1) <= m < 2 ^ d -> 0 < m -> Zdigits2 m = d.
Proof.
  intros H Hm. rewrite Zdigits2_log2 by exact Hm.
  assert (0 < d).
  { destruct (Z.lt_trichotomy d 0) as [C|[C|C]]; [|subst|exact C].
    - rewrite (Z.pow_neg_r 2 d) in H by lia. lia.
    - simpl in H. lia. }
  rewrite (Z.log2_unique m (d - 1)); [ring|lia|].
  replace (Z.succ (d - 1)) with d by ring. exact H.
Qed.

Lemma Zdigits2_le (m d : Z) : 0 <= d -> 0 <= m < 2 ^ d -> Zdigits2 m <= d.
Proof.
  intros Hd [H0 H]. destruct (Z.eq_dec m 0) as [->|Hn]; [simpl; lia|].
  pose proof (Zdigits2_bounds m ltac:(lia)) as [Hl _].
  destruct (Z_le_gt_dec (Zdigits2 m) d) as [C|C]; [exact C|exfalso].
  assert (2 ^ d <= 2 ^ (Zdigits2 m - 1)) by (apply Z.pow_le_mono_r; lia).
  lia.
Qed.

Lemma Zdigits2_mono (a b : Z) : 0 <= a <= b -> Zdigits2 a <= Zdigits2 b.
Proof.
  intros [H0 H]. destruct (Z.eq_dec a 0) as [->|Hn].
  - apply Zdigits2_nonneg.
  - rewrite !Zdigits2_log2 by lia. pose proof (Z.log2_le_mono a b H). lia.
Qed.

(** ** Shifting a located mantissa *)

Lemma located_ext (mrs : shr_record) (w w' : Q) :
  (w == w')%Q -> located mrs w -> located mrs w'.
Proof.
  intros E. unfold located. destruct (shr_r mrs), (shr_s mrs); rewrite E; auto.
Qed.

Lemma located_bounds (mrs : shr_record) (w : Q) :
  located mrs w -> (inject_Z (shr_m mrs) <= w < inject_Z (shr_m mrs) + 1)%Q.
Proof.
  unfold located. destruct (shr_r mrs), (shr_s mrs); intros H; lra.
Qed.

Lemma inject_Z_xO (p : positive) :
  (inject_Z (Zpos p~0) == 2 * inject_Z (Zpos p))%Q.
Proof.
  change (Zpos p~0) with (2 * Zpos p). rewrite inject_Z_mult. reflexivity.
Qed.

Lemma inject_Z_xI (p : positive) :
  (inject_Z (Zpos p~1) == 2 * inject_Z (Zpos p) + 1)%Q.
Proof.
  change (Zpos p~1) with (2 * Zpos p + 1).
  rewrite inject_Z_plus, inject_Z_mult. reflexivity.
Qed.

Lemma shr_1_located (mrs : shr_record) (w : Q) :
  0 <= shr_m mrs -> located mrs w -> located (shr_1 mrs) (w * (1 # 2)).
Proof.
  destruct mrs as [m r s]. cbn [shr_m]. intros Hm.
  destruct m as [|p|p]; [| |lia].
  - unfold located; destruct r, s; cbn; intros H;
      change (inject_Z 0) with 0%Q in *; lra.
  - unfold located. destruct p as [p|p|]; destruct r, s; cbn -[inject_Z];
      rewrite ?inject_Z_xO, ?inject_Z_xI; intros H;
      change (inject_Z 1) with 1%Q in *; change (inject_Z 0) with 0%Q in *; lra.
Qed.

Lemma shr_1_m (mrs : shr_record) :
  0 <= shr_m mrs -> shr_m (shr_1 mrs) = shr_m mrs / 2.
Proof.
  destruct mrs as [m r s]. cbn [shr_m]. intros Hm.
  destruct m as [|p|p]; [reflexivity| |lia].
  destruct p as [p|p|]; cbn [shr_1 shr_m].
  - apply Z.div_unique with (r := 1); lia.
  - apply Z.div_unique with (r := 0); lia.
  - reflexivity.
Qed.

Lemma shr_1_nonneg (mrs : shr_record) :
  0 <= shr_m mrs -> 0 <= shr_m (shr_1 mrs).
Proof.
  intros H. rewrite shr_1_m by exact H. apply Z.div_pos; lia.
Qed.

(** [iter_pos shr_1 p]: the mantissa is divided by [2^p], the located
    value is scaled by [2^-p]. *)
Lemma iter_shr_1 (p : positive) :
  forall mrs w,
    0 <= shr_m mrs -> located mrs w ->
    0 <= shr_m (iter_pos shr_1 p mrs)
    /\ shr_m (iter_pos shr_1 p mrs) = shr_m mrs / 2 ^ Zpos p
    /\ located (iter_pos shr_1 p mrs) (w * pow2 (- Zpos p)).
Proof.
  induction p as [p IH|p IH|]; intros mrs w Hm Hl; cbn [iter_pos].
  - pose proof (shr_1_nonneg mrs Hm) as H1.
    pose proof (shr_1_located mrs w Hm Hl) as L1.
    destruct (IH _ _ H1 L1) as (H2 & M2 & L2).
    destruct (IH _ _ H2 L2) as (H3 & M3 & L3).
    split; [exact H3|]. split.
    + rewrite M3, M2, shr_1_m by exact Hm.
      rewrite !Z.div_div by lia. f_equal.
      change 2 with (2 ^ 1) at 1. rewrite <- !Z.pow_add_r by lia.
      f_equal. lia.
    + eapply located_ext; [|exact L3].
      rewrite Pos2Z.inj_xI.
      replace (- (2 * Zpos p + 1)) with (- Zpos p + (- Zpos p + -1)) by ring.
      rewrite !pow2_add. change (pow2 (-1)) with (1 # 2)%Q.
      generalize (pow2 (- Zpos p)); intros x. ring.
  - destruct (IH _ _ Hm Hl) as (H2 & M2 & L2).
    destruct (IH _ _ H2 L2) as (H3 & M3 & L3).
    split; [exact H3|]. split.
    + rewrite M3, M2. rewrite !Z.div_div by lia. f_equal.
      rewrite <- Z.pow_add_r by lia. f_equal. lia.
    + eapply located_ext; [|exact L3].
      rewrite Pos2Z.inj_xO.
      replace (- (2 * Zpos p)) with (- Zpos p + - Zpos p) by ring.
      rewrite !pow2_add. generalize (pow2 (- Zpos p)); intros x. ring.
  - split; [now apply shr_1_nonneg|]. split.
    + rewrite shr_1_m by exact Hm. reflexivity.
    + eapply located_ext; [|apply shr_1_located; eassumption].
      reflexivity.
Qed.

(** [shr]: shift by [n] when [n] is positive, nothing otherwise. *)
Lemma shr_spec (mrs : shr_record) (e n : Z) (w : Q) :
  0 <= shr_m mrs -> located mrs w ->
  let k := Z.max 0 n in
  0 <= shr_m (fst (shr mrs e n))
  /\ snd (shr mrs e n) = e + k
  /\ shr_m (fst (shr mrs e n)) = shr_m mrs / 2 ^ k
  /\ located (fst (shr mrs e n)) (w * pow2 (- k)).
Proof.
  intros Hm Hl k.
  assert (Hid : 0 <= shr_m mrs /\ e = e + 0 /\ shr_m mrs = shr_m mrs / 2 ^ 0
                /\ located mrs (w * pow2 (- 0))).
  { split; [exact Hm|]. split; [lia|]. split; [now rewrite Z.div_1_r|].
    eapply located_ext; [|exact Hl]. change (pow2 (- 0)) with 1%Q. ring. }
  unfold shr. destruct n as [|p|p]; subst k; cbn [fst snd].
  - exact Hid.
  - replace (Z.max 0 (Zpos p)) with (Zpos p) by lia.
    destruct (iter_shr_1 p mrs w Hm Hl) as (H1 & H2 & H3). auto.
  - replace (Z.max 0 (Zneg p)) with 0 by lia. exact Hid.
Qed.

(** ** Rounding to nearest even *)

Lemma Zdigits2_div_pow2 (m k : Z) :
  0 <= m -> 0 <= k -> Zdigits2 (m / 2 ^ k) = Z.max 0 (Zdigits2 m - k).
Proof.
  intros Hm Hk.
  assert (Hp : 0 < 2 ^ k) by (apply Z.pow_pos_nonneg; lia).
  destruct (Z.eq_dec m 0) as [->|Hn].
  { rewrite Z.div_0_l by lia. simpl. lia. }
  pose proof (Zdigits2_bounds m ltac:(lia)) as [Hl Hu].
  set (d := Zdigits2 m) in *.
  destruct (Z_lt_le_dec m (2 ^ k)) as [C|C].
  - rewrite Z.div_small by lia. simpl.
    assert (d <= k); [|lia].
    destruct (Z_le_gt_dec d k) as [D|D]; [exact D|exfalso].
    assert (2 ^ k <= 2 ^ (d - 1)) by (apply Z.pow_le_mono_r; lia). lia.
  - assert (k < d).
    { destruct (Z_lt_le_dec k d) as [D|D]; [exact D|exfalso].
      assert (2 ^ d <= 2 ^ k) by (apply Z.pow_le_mono_r; lia). lia. }
    replace (Z.max 0 (d - k)) with (d - k) by lia.
    assert (E1 : 2 ^ k * 2 ^ (d - k - 1) = 2 ^ (d - 1)).
    { rewrite <- Z.pow_add_r by lia. f_equal. lia. }
    assert (E2 : 2 ^ k * 2 ^ (d - k) = 2 ^ d).
    { rewrite <- Z.pow_add_r by lia. f_equal. lia. }
    assert (L1 : 2 ^ (d - k - 1) <= m / 2 ^ k).
    { apply Z.div_le_lower_bound; lia. }
    assert (L2 : m / 2 ^ k < 2 ^ (d - k)).
    { apply Z.div_lt_upper_bound; lia. }
    apply Zdigits2_unique; [lia|].
    assert (0 < 2 ^ (d - k - 1)) by (apply Z.pow_pos_nonneg; lia). lia.
Qed.

Section Rounding.

Variables prec emax : Z.
Hypothesis prec_pos : 0 < prec.

Local Abbreviation fexp := (fexp prec emax).
Local Abbreviation emin := (emin prec emax).

Lemma fexp_ge_emin (e : Z) : emin <= fexp e.
Proof. unfold SpecFloat.fexp. lia. Qed.

Lemma fexp_mono (a b : Z) : a <= b -> fexp a <= fexp b.
Proof. unfold SpecFloat.fexp. lia. Qed.

Lemma fexp_succ (a : Z) : fexp (a + 1) <= fexp a + 1.
Proof. unfold SpecFloat.fexp. lia. Qed.

Lemma fexp_ge (a : Z) : a - prec <= fexp a.
Proof. unfold SpecFloat.fexp. lia. Qed.

Lemma shr_m_of_loc (m : Z) (l : location) :
  shr_m (shr_record_of_loc m l) = m.
Proof. destruct l as [|[]]; reflexivity. Qed.

(** Rounding the located value to the nearest integer. *)
Lemma round_nearest_even_spec (mrs : shr_record) (w : Q) :
  located mrs w ->
  let m1 := round_nearest_even (shr_m mrs) (loc_of_shr_record mrs) in
  shr_m mrs <= m1 <= shr_m mrs + 1
  /\ (Qabs (inject_Z m1 - w) <= 1 # 2)%Q
  /\ (loc_of_shr_record mrs = loc_Exact -> (inject_Z m1 == w)%Q).
Proof.
  destruct mrs as [m r s]. unfold located. cbn [shr_m shr_r shr_s].
  intros H.
  destruct r, s; cbn [loc_of_shr_record round_nearest_even].
  - split; [lia|]. split; [|discriminate].
    rewrite inject_Z_plus. change (inject_Z 1) with 1%Q.
    apply Qabs_Qle_condition. lra.
  - destruct (Z.even m).
    + split; [lia|]. split; [|discriminate]. apply Qabs_Qle_condition. lra.
    + split; [lia|]. split; [|discriminate].
      rewrite inject_Z_plus. change (inject_Z 1) with 1%Q.
      apply Qabs_Qle_condition. lra.
  - split; [lia|]. split; [|discriminate]. apply Qabs_Qle_condition. lra.
  - split; [lia|]. split; [|intros _; lra]. apply Qabs_Qle_condition. lra.
Qed.

(** The first shift brings the mantissa down to at most [prec] digits and
    to the exponent [max ex (fexp (digits mx + ex))]. *)
Lemma first_shift (mx ex : Z) :
  0 <= mx ->
  let E := fexp (Zdigits2 mx + ex) in
  let k := Z.max 0 (E - ex) in
  let m' := mx / 2 ^ k in
  fexp (Zdigits2 m' + (ex + k)) <= ex + k /\ Zdigits2 m' <= prec.
Proof.
  intros Hm E k m'. subst m'.
  rewrite Zdigits2_div_pow2 by lia.
  pose proof (fexp_ge (Zdigits2 mx + ex)) as G.
  pose proof (fexp_ge_emin (Zdigits2 mx + ex)) as G'.
  pose proof (Zdigits2_nonneg mx) as Dn.
  fold E in G, G'.
  destruct (Z_le_gt_dec E ex) as [C|C].
  - replace k with 0 by lia. rewrite Z.sub_0_r, Z.add_0_r.
    replace (Z.max 0 (Zdigits2 mx)) with (Zdigits2 mx) by lia.
    fold E. lia.
  - replace k with (E - ex) by lia.
    destruct (Z_le_gt_dec (Zdigits2 mx) (E - ex)) as [D|D].
    + replace (Z.max 0 (Zdigits2 mx - (E - ex))) with 0 by lia.
      split; [|lia]. unfold SpecFloat.fexp. lia.
    + replace (Z.max 0 (Zdigits2 mx - (E - ex))) with (Zdigits2 mx - (E - ex)) by lia.
      replace (Zdigits2 mx - (E - ex) + (ex + (E - ex))) with (Zdigits2 mx + ex) by ring.
      fold E. lia.
Qed.

(** The second shift renormalises after a carry; it loses nothing. *)
Lemma second_shift (m' m1 e' : Z) :
  0 <= m' -> m' <= m1 <= m' + 1 ->
  fexp (Zdigits2 m' + e') <= e' -> Zdigits2 m' <= prec ->
  let res := shr (Build_shr_record m1 false false) e'
                 (fexp (Zdigits2 m1 + e') - e') in
  0 <= shr_m (fst res)
  /\ e' <= snd res <= e' + 1
  /\ shr_m (fst res) * 2 ^ (snd res - e') = m1
  /\ Zdigits2 (shr_m (fst res)) <= prec.
Proof.
  intros Hm' Hm1 Hc Hd res.
  assert (L : located (Build_shr_record m1 false false) (inject_Z m1)).
  { unfold located; cbn. reflexivity. }
  destruct (shr_spec (Build_shr_record m1 false false) e'
              (fexp (Zdigits2 m1 + e') - e') (inject_Z m1) ltac:(cbn; lia) L)
    as (R0 & R1 & R2 & _).
  fold res in R0, R1, R2. cbn [shr_m] in R2.
  set (n2 := fexp (Zdigits2 m1 + e') - e') in *.
  pose proof (Zdigits2_nonneg m') as Dn.
  assert (D1 : Zdigits2 m1 <= Zdigits2 m' + 1).
  { apply Zdigits2_le; [lia|]. split; [lia|].
    destruct (Z.eq_dec m' 0) as [->|Hn]; [simpl in *; lia|].
    pose proof (Zdigits2_bounds m' ltac:(lia)) as [_ Hu].
    rewrite Z.pow_add_r by lia. change (2 ^ 1) with 2. lia. }
  assert (N2 : n2 <= 1).
  { subst n2. pose proof (fexp_mono _ _ (Zplus_le_compat_r _ _ e' D1)) as F.
    pose proof (fexp_succ (Zdigits2 m' + e')) as F'.
    replace (Zdigits2 m' + 1 + e') with (Zdigits2 m' + e' + 1) in F by ring. lia. }
  destruct (Z_le_gt_dec n2 0) as [C|C].
  - replace (Z.max 0 n2) with 0 in R1, R2 by lia.
    rewrite Z.div_1_r in R2. rewrite R1, R2.
    replace (e' + 0 - e') with 0 by ring. rewrite Z.mul_1_r.
    split; [lia|]. split; [lia|]. split; [lia|].
    destruct (Z_le_gt_dec (Zdigits2 m1) prec) as [P|P]; [exact P|exfalso].
    pose proof (fexp_ge (Zdigits2 m1 + e')). lia.
  - assert (n2 = 1) by lia.
    replace (Z.max 0 n2) with 1 in R1, R2 by lia.
    change (2 ^ 1) with 2 in R2.
    assert (D2 : Zdigits2 m1 = Zdigits2 m' + 1).
    { destruct (Z.eq_dec (Zdigits2 m1) (Zdigits2 m' + 1)) as [e|ne]; [exact e|exfalso].
      assert (Zdigits2 m1 <= Zdigits2 m') by lia.
      pose proof (fexp_mono _ _ (Zplus_le_compat_r _ _ e' H0)). lia. }
    assert (Dp : 1 <= Zdigits2 m').
    { destruct (Z.eq_dec (Zdigits2 m') 0) as [e|ne]; [exfalso|lia].
      rewrite e in *. subst n2. unfold SpecFloat.fexp in *. lia. }
    assert (Hm1p : 0 < m1).
    { destruct (Z.eq_dec m1 0) as [e|ne]; [|lia]. rewrite e in D2. simpl in D2. lia. }
    assert (Hm'p : 0 < m').
    { destruct (Z.eq_dec m' 0) as [e|ne]; [|lia]. rewrite e in Dp. simpl in Dp. lia. }
    pose proof (Zdigits2_bounds m1 Hm1p) as [B1 _].
    pose proof (Zdigits2_bounds m' Hm'p) as [_ B2].
    rewrite D2 in B1. replace (Zdigits2 m' + 1 - 1) with (Zdigits2 m') in B1 by ring.
    assert (M1 : m1 = 2 * 2 ^ (Zdigits2 m' - 1)).
    { replace (Zdigits2 m') with (1 + (Zdigits2 m' - 1)) in B1, B2 by ring.
      rewrite Z.pow_add_r in B1, B2 by lia. change (2 ^ 1) with 2 in *. lia. }
    assert (Q : m1 / 2 = 2 ^ (Zdigits2 m' - 1)).
    { rewrite M1. rewrite Z.mul_comm. apply Z.div_mul. lia. }
    rewrite R1, R2, Q.
    replace (e' + 1 - e') with 1 by ring. change (2 ^ 1) with 2.
    split; [apply Z.pow_nonneg; lia|]. split; [lia|]. split; [lia|].
    assert (0 < 2 ^ (Zdigits2 m' - 1)) by (apply Z.pow_pos_nonneg; lia).
    assert (P2 : 2 ^ Zdigits2 m' = 2 * 2 ^ (Zdigits2 m' - 1)).
    { replace (Zdigits2 m') with (1 + (Zdigits2 m' - 1)) at 1 by ring.
      rewrite Z.pow_add_r by lia. reflexivity. }
    rewrite (Zdigits2_unique _ (Zdigits2 m')); lia.
Qed.

(** What [binary_round_aux] returns, for a value [w * 2^ex] located by
    [(mx, lx)]: the sign, a mantissa of at most [prec] digits and an
    exponent, within half a unit in the last place of the value. *)
Lemma binary_round_aux_spec (sx : bool) (mx ex : Z) (lx : location) (w : Q) :
  0 <= mx -> located (shr_record_of_loc mx lx) w ->
  let E := fexp (Zdigits2 mx + ex) in
  let e' := Z.max ex E in
  exists m e,
    0 <= m
    /\ binary_round_aux prec emax sx mx ex lx = mk_float prec emax sx m e
    /\ e' <= e <= e' + 1
    /\ Zdigits2 m <= prec
    /\ (Qabs (inject_Z m * pow2 e - w * pow2 ex) <= pow2 e' * (1 # 2))%Q
    /\ (lx = loc_Exact -> E <= ex -> (inject_Z m * pow2 e == w * pow2 ex)%Q).
Proof.
  intros Hm Hl E e'.
  unfold binary_round_aux, shr_fexp. fold E.
  destruct (shr_spec (shr_record_of_loc mx lx) ex (E - ex) w
              ltac:(rewrite shr_m_of_loc; exact Hm) Hl)
    as (S0 & S1 & S2 & S3).
  rewrite shr_m_of_loc in S2.
  destruct (first_shift mx ex Hm) as [F1 F2]. fold E in F1, F2.
  set (k := Z.max 0 (E - ex)) in *.
  assert (Ee : ex + k = e') by (subst k e'; lia).
  destruct (shr (shr_record_of_loc mx lx) ex (E - ex)) as [mrs1 e1] eqn:Sh.
  cbn [fst snd] in S0, S1, S2, S3. subst e1. rewrite Ee in *.
  destruct (round_nearest_even_spec mrs1 _ S3) as (R1 & R2 & R3).
  set (m1 := round_nearest_even (shr_m mrs1) (loc_of_shr_record mrs1)) in *.
  rewrite <- S2 in F1, F2.
  destruct (second_shift (shr_m mrs1) m1 e' S0 R1 F1 F2) as (T0 & T1 & T2 & T3).
  change (shr_record_of_loc m1 loc_Exact) with (Build_shr_record m1 false false).
  destruct (shr (Build_shr_record m1 false false) e'
              (fexp (Zdigits2 m1 + e') - e')) as [mrs2 e2] eqn:Sh2.
  cbn [fst snd] in T0, T1, T2, T3.
  exists (shr_m mrs2), e2.
  split; [exact T0|]. split; [reflexivity|]. split; [exact T1|]. split; [exact T3|].
  assert (V : (inject_Z (shr_m mrs2) * pow2 e2 == inject_Z m1 * pow2 e')%Q).
  { rewrite <- T2. rewrite inject_Z_mult.
    rewrite <- pow2_Z by lia.
    replace e2 with ((e2 - e') + e') at 1 by ring. rewrite pow2_add.
    generalize (pow2 (e2 - e')) (pow2 e'). intros. ring. }
  assert (W : (w * pow2 ex == (w * pow2 (- k)) * pow2 e')%Q).
  { rewrite <- Ee. rewrite (pow2_add ex k). rewrite pow2_opp.
    pose proof (pow2_pos k). generalize dependent (pow2 k).
    generalize (pow2 ex). intros. field. lra. }
  split.
  - rewrite V, W.
    setoid_replace (inject_Z m1 * pow2 e' - w * pow2 (- k) * pow2 e')%Q
      with ((inject_Z m1 - w * pow2 (- k)) * pow2 e')%Q by ring.
    rewrite Qabs_Qmult. rewrite (Qabs_pos (pow2 e')) by (pose proof (pow2_pos e'); lra).
    rewrite (Qmult_comm (pow2 e')).
    apply Qmult_le_compat_r; [exact R2|]. pose proof (pow2_pos e'); lra.
  - intros -> HE. rewrite V, W.
    assert (Lx : loc_of_shr_record mrs1 = loc_Exact).
    { unfold shr in Sh.
      destruct (E - ex) as [|p|p] eqn:D; try lia; inversion Sh; reflexivity. }
    rewrite (R3 Lx). reflexivity.
Qed.

End Rounding.

Local Open Scope Q_scope.

(** ** Relative error *)

Lemma Qabs_zero_inv (x : Q) : Qabs x <= 0 -> x == 0.
Proof. intros H. apply Qabs_Qle_condition in H. lra. Qed.

Lemma Qabs_nonzero_pos (x : Q) : ~ x == 0 -> 0 < Qabs x.
Proof.
  intros H. destruct (Qlt_le_dec 0 (Qabs x)) as [C|C]; [exact C|].
  exfalso. apply H. now apply Qabs_zero_inv.
Qed.

Lemma rel_err_ext (eps eps' x x' v v' : Q) :
  eps == eps' -> x == x' -> v == v' -> rel_err eps x v -> rel_err eps' x' v'.
Proof. unfold rel_err. intros -> -> ->. auto. Qed.

#[global] Instance rel_err_proper :
  Proper (Qeq ==> Qeq ==> Qeq ==> iff) rel_err.
Proof.
  intros e e' He x x' Hx v v' Hv.
  split; apply rel_err_ext; auto; symmetry; assumption.
Qed.

Lemma rel_err_refl (x : Q) : rel_err 0 x x.
Proof.
  unfold rel_err. setoid_replace (x - x) with 0 by ring.
  rewrite Qmult_0_l. apply Qle_refl.
Qed.

Lemma rel_err_weaken (eps eps' x v : Q) :
  eps <= eps' -> rel_err eps x v -> rel_err eps' x v.
Proof.
  unfold rel_err. intros H H1. eapply Qle_trans; [exact H1|].
  apply Qmult_le_compat_r; [exact H|apply Qabs_nonneg].
Qed.

(** A relative error is a factor [1 + delta]. *)
Lemma rel_err_delta (eps x v : Q) :
  0 <= eps ->
  rel_err eps x v <-> exists delta, Qabs delta <= eps /\ x == v * (1 + delta).
Proof.
  intros He. unfold rel_err. split.
  - intros H. destruct (Qeq_dec v 0) as [E|E].
    + exists 0. split; [exact He|].
      rewrite E in H. change (Qabs 0) with 0 in H. rewrite Qmult_0_r in H.
      apply Qabs_zero_inv in H. rewrite E. lra.
    + exists ((x - v) / v). split.
      * unfold Qdiv. rewrite Qabs_Qmult, Qabs_Qinv.
        pose proof (Qabs_nonzero_pos v E).
        apply Qle_shift_div_r; assumption.
      * field. exact E.
  - intros (delta & Hd & ->).
    setoid_replace (v * (1 + delta) - v) with (delta * v) by ring.
    rewrite Qabs_Qmult. apply Qmult_le_compat_r; [exact Hd|apply Qabs_nonneg].
Qed.

Lemma Qabs_le_add (a b ea eb : Q) :
  Qabs a <= ea -> Qabs b <= eb -> Qabs (a + b) <= ea + eb.
Proof.
  intros Ha Hb. eapply Qle_trans; [apply Qabs_triangle|]. lra.
Qed.

Lemma Qabs_le_mul (a b ea eb : Q) :
  Qabs a <= ea -> Qabs b <= eb -> Qabs (a * b) <= ea * eb.
Proof.
  intros Ha Hb. rewrite Qabs_Qmult.
  pose proof (Qabs_nonneg a). pose proof (Qabs_nonneg b).
  eapply Qle_trans.
  - apply Qmult_le_compat_r; [exact Ha|assumption].
  - rewrite (Qmult_comm ea), (Qmult_comm ea).
    apply Qmult_le_compat_r; [exact Hb|lra].
Qed.

Lemma rel_err_mul (e1 e2 x1 v1 x2 v2 : Q) :
  0 <= e1 -> 0 <= e2 ->
  rel_err e1 x1 v1 -> rel_err e2 x2 v2 ->
  rel_err (e1 + e2 + e1 * e2) (x1 * x2) (v1 * v2).
Proof.
  intros H1 H2 R1 R2.
  apply rel_err_delta in R1; [|exact H1]. apply rel_err_delta in R2; [|exact H2].
  destruct R1 as (d1 & D1 & E1). destruct R2 as (d2 & D2 & E2).
  apply rel_err_delta.
  { pose proof (Qmult_le_0_compat _ _ H1 H2). lra. }
  exists (d1 + d2 + d1 * d2). split.
  - apply Qabs_le_add; [apply Qabs_le_add; assumption|].
    apply Qabs_le_mul; assumption.
  - rewrite E1, E2. ring.
Qed.

(** A rounding applied to an approximation. *)
Lemma rel_err_trans (e1 e2 x y v : Q) :
  0 <= e1 -> 0 <= e2 ->
  rel_err e1 y v -> rel_err e2 x y ->
  rel_err (e1 + e2 + e1 * e2) x v.
Proof.
  intros H1 H2 R1 R2.
  apply rel_err_delta in R1; [|exact H1]. apply rel_err_delta in R2; [|exact H2].
  destruct R1 as (d1 & D1 & E1). destruct R2 as (d2 & D2 & E2).
  apply rel_err_delta.
  { pose proof (Qmult_le_0_compat _ _ H1 H2). lra. }
  exists (d1 + d2 + d1 * d2). split.
  - apply Qabs_le_add; [apply Qabs_le_add; assumption|].
    apply Qabs_le_mul; assumption.
  - rewrite E2, E1. ring.
Qed.

(** Division by an approximated divisor. *)
Lemma rel_err_div (e2 x v2 x2 : Q) :
  0 <= e2 -> e2 <= 1 # 2 -> ~ v2 == 0 ->
  rel_err e2 x2 v2 ->
  rel_err (2 * e2) (x / x2) (x / v2).
Proof.
  intros H0 H2 Hv R2.
  apply rel_err_delta in R2; [|exact H0].
  destruct R2 as (d2 & D2 & E2).
  apply Qabs_Qle_condition in D2.
  assert (Hd : 0 < 1 + d2) by lra.
  apply rel_err_delta; [lra|].
  exists (- d2 / (1 + d2)). split.
  - unfold Qdiv. rewrite Qabs_Qmult, Qabs_Qinv, Qabs_opp.
    rewrite (Qabs_pos (1 + d2)) by lra.
    apply Qle_shift_div_r; [exact Hd|].
    assert (Qabs d2 <= e2) by (apply Qabs_Qle_condition; lra).
    assert (e2 <= 2 * e2 * (1 + d2)); [|lra].
    assert (0 <= e2 * (1 + 2 * d2)); [|lra].
    apply Qmult_le_0_compat; lra.
  - rewrite E2. field. split; [lra|exact Hv].
Qed.

Lemma rel_err_scale (c eps x v : Q) :
  rel_err eps x v -> rel_err eps (c * x) (c * v).
Proof.
  unfold rel_err. intros H.
  setoid_replace (c * x - c * v) with (c * (x - v)) by ring.
  rewrite !Qabs_Qmult.
  setoid_replace (eps * (Qabs c * Qabs v)) with (Qabs c * (eps * Qabs v)) by ring.
  rewrite (Qmult_comm (Qabs c)), (Qmult_comm (Qabs c)).
  apply Qmult_le_compat_r; [exact H|apply Qabs_nonneg].
Qed.

(** Bounds on an approximation from bounds on the value. *)
Lemma rel_err_band (eps x v lo hi : Q) :
  0 <= eps -> eps <= 1 # 2 ->
  rel_err eps x v -> lo <= Qabs v -> Qabs v < hi ->
  lo * (1 # 2) <= Qabs x /\ Qabs x < hi * 2.
Proof.
  intros H0 H1 R Hl Hh.
  apply rel_err_delta in R; [|exact H0].
  destruct R as (d & D & E).
  rewrite E, Qabs_Qmult.
  apply Qabs_Qle_condition in D.
  rewrite (Qabs_pos (1 + d)) by lra.
  pose proof (Qabs_nonneg v) as Hv.
  split.
  - assert (0 <= Qabs v * ((1 # 2) + d)) by (apply Qmult_le_0_compat; lra).
    lra.
  - assert (0 <= Qabs v * ((1 # 2) - d)) by (apply Qmult_le_0_compat; lra).
    lra.
Qed.

Local Close Scope Q_scope.

(** ** Rounding in the normal range *)

Lemma pow2_le_inv (a b : Z) : (pow2 a <= pow2 b)%Q -> a <= b.
Proof. unfold pow2. intros H. apply Qpower_le_compat_l_inv in H; [exact H|reflexivity]. Qed.

Lemma pow2_lt_inv (a b : Z) : (pow2 a < pow2 b)%Q -> a < b.
Proof. unfold pow2. intros H. apply Qpower_lt_compat_l_inv in H; [exact H|reflexivity]. Qed.

(** A positive mantissa with [d] digits at exponent [e] lies in
    [[2^(d-1+e), 2^(d+e))]. *)
Lemma mantissa_band (m e : Z) :
  0 < m ->
  (pow2 (Zdigits2 m - 1 + e) <= inject_Z m * pow2 e
   /\ inject_Z m * pow2 e < pow2 (Zdigits2 m + e))%Q.
Proof.
  intros Hm. pose proof (Zdigits2_bounds m Hm) as [Hl Hu].
  pose proof (Zdigits2_nonneg m) as Dn.
  assert (D1 : 1 <= Zdigits2 m).
  { destruct m; simpl in *; lia. }
  pose proof (pow2_pos e) as Pe.
  rewrite !pow2_add. rewrite (pow2_Z (Zdigits2 m - 1)) by lia.
  rewrite (pow2_Z (Zdigits2 m)) by lia.
  split.
  - apply Qmult_le_compat_r; [|lra]. rewrite <- Zle_Qle. exact Hl.
  - apply Qmult_lt_compat_r; [lra|]. rewrite <- Zlt_Qlt. exact Hu.
Qed.

Section Normal.

Variables prec emax : Z.
Hypothesis prec_pos : 0 < prec.

Local Abbreviation fexp := (fexp prec emax).
Local Abbreviation emin := (emin prec emax).

(** Rounding in the normal range, away from overflow: a finite result
    with relative error at most [2^-prec]. *)
Lemma round_normal (sx : bool) (mx ex : Z) (lx : location) (w : Q) :
  0 < mx -> located (shr_record_of_loc mx lx) w ->
  let M := Zdigits2 mx + ex in
  emin <= M - prec -> M <= emax - prec ->
  lx = loc_Exact \/ ex <= M - prec ->
  exists m e,
    binary_round_aux prec emax sx mx ex lx = S754_finite sx m e
    /\ Zdigits2 (Zpos m) <= prec
    /\ rel_err (pow2 (- prec)) (inject_Z (Zpos m) * pow2 e) (w * pow2 ex).
Proof.
  intros Hm Hl M Hn Ho Hx.
  destruct (binary_round_aux_spec prec emax prec_pos sx mx ex lx w
              ltac:(lia) Hl) as (m & e & M0 & Eq & He & Hd & Herr & Hex).
  fold M in He, Herr, Hex.
  assert (FE : fexp M = M - prec) by (unfold SpecFloat.fexp; fold emin; lia).
  rewrite FE in *.
  pose proof (located_bounds _ _ Hl) as [Wl _].
  rewrite shr_m_of_loc in Wl.
  pose proof (mantissa_band mx ex Hm) as [Bl _]. fold M in Bl.
  pose proof (pow2_pos ex) as Pex.
  assert (V : (pow2 (M - 1) <= w * pow2 ex)%Q).
  { replace (M - 1) with (Zdigits2 mx - 1 + ex) by (subst M; ring).
    eapply Qle_trans; [exact Bl|]. apply Qmult_le_compat_r; [exact Wl|lra]. }
  assert (Vp : (0 < w * pow2 ex)%Q).
  { pose proof (pow2_pos (M - 1)). lra. }
  assert (R : rel_err (pow2 (- prec)) (inject_Z m * pow2 e) (w * pow2 ex)).
  { unfold rel_err. rewrite (Qabs_pos (w * pow2 ex)) by lra.
    destruct (Z_le_gt_dec ex (M - prec)) as [C|C].
    - eapply Qle_trans; [exact Herr|].
      replace (Z.max ex (M - prec)) with (M - prec) by lia.
      assert (P : (pow2 (M - prec) * (1 # 2) == pow2 (- prec) * pow2 (M - 1))%Q).
      { rewrite <- pow2_add. replace (- prec + (M - 1)) with ((M - prec) - 1) by ring.
        rewrite pow2_pred. generalize (pow2 (M - prec)); intros; field. }
      rewrite P. rewrite (Qmult_comm (pow2 (- prec))), (Qmult_comm (pow2 (- prec))).
      apply Qmult_le_compat_r; [exact V|]. pose proof (pow2_pos (- prec)); lra.
    - destruct Hx as [Hx|Hx]; [|lia].
      rewrite (Hex Hx ltac:(lia)).
      setoid_replace (w * pow2 ex - w * pow2 ex)%Q with 0%Q by ring.
      change (Qabs 0) with 0%Q.
      apply Qmult_le_0_compat; [|lra]. pose proof (pow2_pos (- prec)); lra. }
  assert (Mp : 0 < m).
  { destruct (Z.eq_dec m 0) as [Z0|NZ]; [exfalso|lia].
    subst m. unfold rel_err in R. rewrite (Qabs_pos (w * pow2 ex)) in R by lra.
    change (inject_Z 0) with 0%Q in R.
    setoid_replace (0 * pow2 e - w * pow2 ex)%Q with (- (w * pow2 ex))%Q in R by ring.
    rewrite Qabs_opp, (Qabs_pos (w * pow2 ex)) in R by lra.
    assert (pow2 (- prec) <= 1 # 2)%Q.
    { change (1 # 2)%Q with (pow2 (-1)). apply pow2_le. lia. }
    assert (pow2 (- prec) * (w * pow2 ex) <= (1 # 2) * (w * pow2 ex))%Q.
    { apply Qmult_le_compat_r; lra. }
    lra. }
  destruct m as [|p|p]; try lia.
  exists p, e. split; [|split; [exact Hd|exact R]].
  rewrite Eq. unfold mk_float.
  replace (e <=? emax - prec) with true; [reflexivity|].
  assert (1 <= Zdigits2 mx) by (destruct mx; simpl in *; lia).
  symmetry. apply Z.leb_le. lia.
Qed.

End Normal.

(** ** Signed values *)

Lemma SF2Q_finite (s : bool) (m : positive) (e : Z) :
  (SF2Q (S754_finite s m e) == sgnQ s * (inject_Z (Zpos m) * pow2 e))%Q.
Proof.
  unfold SF2Q, sgnQ. destruct s; cbn [cond_Zopp].
  - change (- Zpos m) with (Zneg m).
    change (inject_Z (Zneg m)) with (- inject_Z (Zpos m))%Q. ring.
  - ring.
Qed.

Lemma sgnQ_xorb (a b : bool) : (sgnQ (xorb a b) == sgnQ a * sgnQ b)%Q.
Proof. destruct a, b; reflexivity. Qed.

Lemma Qabs_sgnQ (s : bool) (x : Q) : (0 <= x)%Q -> (Qabs (sgnQ s * x) == x)%Q.
Proof.
  intros H. rewrite Qabs_Qmult. rewrite (Qabs_pos x) by exact H.
  destruct s; cbn; ring.
Qed.

Lemma SF2Q_abs (s : bool) (m : positive) (e : Z) :
  (Qabs (SF2Q (S754_finite s m e)) == inject_Z (Zpos m) * pow2 e)%Q.
Proof.
  rewrite SF2Q_finite. apply Qabs_sgnQ.
  pose proof (pow2_pos e). apply Qmult_le_0_compat; [|lra].
  change 0%Q with (inject_Z 0). rewrite <- Zle_Qle. lia.
Qed.

(** ** The location computed by the division *)

Lemma new_location_located (q my r : Z) :
  0 < my -> 0 <= r < my ->
  located (shr_record_of_loc q (new_location my r))
          (inject_Z q + inject_Z r / inject_Z my).
Proof.
  intros Hmy Hr.
  assert (Qm : (0 < inject_Z my)%Q).
  { change 0%Q with (inject_Z 0). rewrite <- Zlt_Qlt. exact Hmy. }
  set (x := (inject_Z r / inject_Z my)%Q).
  assert (X0 : r = 0 -> (x == 0)%Q).
  { intros ->. subst x. unfold Qdiv. change (inject_Z 0) with 0%Q. ring. }
  assert (Xp : r <> 0 -> (0 < x)%Q).
  { intros H. subst x. apply Qlt_shift_div_l; [exact Qm|].
    rewrite Qmult_0_l. change 0%Q with (inject_Z 0). rewrite <- Zlt_Qlt. lia. }
  assert (X1 : (x < 1)%Q).
  { subst x. apply Qlt_shift_div_r; [exact Qm|].
    rewrite Qmult_1_l. rewrite <- Zlt_Qlt. lia. }
  assert (Xlt : 2 * r < my -> (x < 1 # 2)%Q).
  { intros H. subst x. apply Qlt_shift_div_r; [exact Qm|].
    assert (2 * inject_Z r < inject_Z my)%Q; [|lra].
    change 2%Q with (inject_Z 2). rewrite <- inject_Z_mult, <- Zlt_Qlt. exact H. }
  assert (Xgt : my < 2 * r -> (1 # 2 < x)%Q).
  { intros H. subst x. apply Qlt_shift_div_l; [exact Qm|].
    assert (inject_Z my < 2 * inject_Z r)%Q; [|lra].
    change 2%Q with (inject_Z 2). rewrite <- inject_Z_mult, <- Zlt_Qlt. exact H. }
  assert (Xeq : 2 * r = my -> (x == 1 # 2)%Q).
  { intros H. subst x. rewrite <- H. rewrite inject_Z_mult.
    change (inject_Z 2) with 2%Q. field.
    intros C. rewrite <- H, inject_Z_mult in Qm. change (inject_Z 2) with 2%Q in Qm.
    lra. }
  unfold new_location, new_location_even, new_location_odd.
  destruct (Z.even my) eqn:Ev.
  - destruct (Z.eqb_spec r 0) as [R0|R0].
    + unfold located; cbn. rewrite (X0 R0). ring.
    + specialize (Xp R0).
      destruct (Z.compare_spec (2 * r) my) as [C|C|C]; unfold located; cbn.
      * rewrite (Xeq C). reflexivity.
      * specialize (Xlt C). lra.
      * specialize (Xgt C). lra.
  - destruct (Z.eqb_spec r 0) as [R0|R0].
    + unfold located; cbn. rewrite (X0 R0). ring.
    + specialize (Xp R0).
      assert (Od : 2 * r <> my).
      { intros C. rewrite <- C in Ev. rewrite Z.even_mul in Ev. discriminate. }
      destruct (Z.compare_spec (2 * r + 1) my) as [C|C|C]; unfold located; cbn.
      * specialize (Xlt ltac:(lia)). lra.
      * specialize (Xlt ltac:(lia)). lra.
      * specialize (Xgt ltac:(lia)). lra.
Qed.

(** ** Multiplication and division *)

Lemma Zdigits2_pow2 (k : Z) : 0 <= k -> Zdigits2 (2 ^ k) = k + 1.
Proof.
  intros Hk. assert (0 < 2 ^ k) by (apply Z.pow_pos_nonneg; lia).
  apply Zdigits2_unique; [|assumption].
  replace (k + 1 - 1) with k by ring.
  rewrite Z.pow_add_r by lia. change (2 ^ 1) with 2. lia.
Qed.

Lemma Zdigits2_mul_pow2 (m k : Z) :
  0 < m -> 0 <= k -> Zdigits2 (m * 2 ^ k) = Zdigits2 m + k.
Proof.
  intros Hm Hk. pose proof (Zdigits2_bounds m Hm) as [Hl Hu].
  assert (D1 : 1 <= Zdigits2 m) by (destruct m; simpl in *; lia).
  assert (P : 0 < 2 ^ k) by (apply Z.pow_pos_nonneg; lia).
  apply Zdigits2_unique; [|nia].
  replace (Zdigits2 m + k - 1) with (Zdigits2 m - 1 + k) by ring.
  rewrite !Z.pow_add_r by lia. nia.
Qed.

Section Operations.

Variables prec emax : Z.
Hypothesis prec_pos : 0 < prec.

Local Abbreviation fexp := (fexp prec emax).
Local Abbreviation emin := (emin prec emax).

(** Multiplication of two finite numbers whose exact product is in the
    normal range and below the overflow threshold. *)
Lemma SFmul_correct (sx : bool) (mx : positive) (ex : Z)
                    (sy : bool) (my : positive) (ey : Z) :
  let x := S754_finite sx mx ex in
  let y := S754_finite sy my ey in
  (pow2 (emin + prec) <= Qabs (SF2Q x * SF2Q y))%Q ->
  (Qabs (SF2Q x * SF2Q y) < pow2 (emax - prec))%Q ->
  exists m e,
    SFmul prec emax x y = S754_finite (xorb sx sy) m e
    /\ Zdigits2 (Zpos m) <= prec
    /\ rel_err (pow2 (- prec)) (SF2Q (S754_finite (xorb sx sy) m e))
               (SF2Q x * SF2Q y).
Proof.
  intros x y Hlo Hhi.
  assert (V : (SF2Q x * SF2Q y
               == sgnQ (xorb sx sy)
                  * (inject_Z (Zpos (mx * my)) * pow2 (ex + ey)))%Q).
  { subst x y. rewrite !SF2Q_finite, sgnQ_xorb, pow2_add.
    rewrite Pos2Z.inj_mul, inject_Z_mult. ring. }
  assert (Vn : (0 <= inject_Z (Zpos (mx * my)) * pow2 (ex + ey))%Q).
  { pose proof (pow2_pos (ex + ey)). apply Qmult_le_0_compat; [|lra].
    change 0%Q with (inject_Z 0). rewrite <- Zle_Qle. lia. }
  rewrite V, Qabs_sgnQ in Hlo, Hhi by exact Vn.
  pose proof (mantissa_band (Zpos (mx * my)) (ex + ey) ltac:(lia)) as [Bl Bu].
  set (M := Zdigits2 (Zpos (mx * my)) + (ex + ey)) in *.
  assert (M1 : emin + prec < M).
  { apply pow2_lt_inv. eapply Qle_lt_trans; [exact Hlo|exact Bu]. }
  assert (M2 : M - 1 < emax - prec).
  { apply pow2_lt_inv. replace (M - 1) with (Zdigits2 (Zpos (mx * my)) - 1 + (ex + ey))
      by (subst M; ring).
    eapply Qle_lt_trans; [exact Bl|exact Hhi]. }
  destruct (round_normal prec emax prec_pos (xorb sx sy) (Zpos (mx * my)) (ex + ey)
              loc_Exact (inject_Z (Zpos (mx * my))) ltac:(lia)
              ltac:(unfold located; cbn; reflexivity))
    as (m & e & Eq & Hd & R); fold M; try lia.
  { left; reflexivity. }
  exists m, e. split; [exact Eq|]. split; [exact Hd|].
  eapply rel_err_ext; [reflexivity| | |apply (rel_err_scale (sgnQ (xorb sx sy))); exact R].
  - rewrite SF2Q_finite. reflexivity.
  - rewrite V. reflexivity.
Qed.

Lemma div_shift (m s : Z) :
  0 <= s ->
  match s with
  | Zpos _ => Z.shiftl m s
  | Z0 => m
  | Zneg _ => 0
  end = m * 2 ^ s.
Proof.
  intros Hs. destruct s as [|p|p]; [simpl; ring| |lia].
  apply Z.shiftl_mul_pow2. lia.
Qed.

(** Division of two finite numbers whose exact quotient is in the normal
    range and below the overflow threshold. *)
Lemma SFdiv_correct (sx : bool) (mx : positive) (ex : Z)
                    (sy : bool) (my : positive) (ey : Z) :
  let x := S754_finite sx mx ex in
  let y := S754_finite sy my ey in
  (pow2 (emin + prec) <= Qabs (SF2Q x / SF2Q y))%Q ->
  (Qabs (SF2Q x / SF2Q y) < pow2 (emax - prec))%Q ->
  exists m e,
    SFdiv prec emax x y = S754_finite (xorb sx sy) m e
    /\ Zdigits2 (Zpos m) <= prec
    /\ rel_err (pow2 (- prec)) (SF2Q (S754_finite (xorb sx sy) m e))
               (SF2Q x / SF2Q y).
Proof.
  intros x y Hlo Hhi.
  subst x y.
  set (d1 := Zdigits2 (Zpos mx)). set (d2 := Zdigits2 (Zpos my)).
  set (D := d1 + ex - (d2 + ey)).
  set (e' := Z.min (fexp D) (ex - ey)).
  set (s := ex - ey - e').
  assert (Hs : 0 <= s) by (subst s e'; lia).
  change (SFdiv prec emax (S754_finite sx mx ex) (S754_finite sy my ey))
    with (let '(mz, ez, lz) :=
            let '(q, r) :=
              Z.div_eucl match s with
                         | Zpos _ => Z.shiftl (Zpos mx) s
                         | Z0 => Zpos mx
                         | Zneg _ => 0
                         end (Zpos my) in
            (q, e', new_location (Zpos my) r) in
          binary_round_aux prec emax (xorb sx sy) mz ez lz).
  rewrite (div_shift (Zpos mx) s Hs).
  set (m' := Zpos mx * 2 ^ s).
  pose proof (Z_div_mod m' (Zpos my) eq_refl) as DM.
  destruct (Z.div_eucl m' (Zpos my)) as [q r] eqn:Edm.
  destruct DM as [DM1 DM2].
  pose proof (pow2_pos ex) as Pex. pose proof (pow2_pos ey) as Pey.
  pose proof (pow2_pos e') as Pe'. pose proof (pow2_pos s) as Ps.
  assert (Qmy : (0 < inject_Z (Zpos my))%Q).
  { change 0%Q with (inject_Z 0). rewrite <- Zlt_Qlt. lia. }
  assert (Qmx : (0 < inject_Z (Zpos mx))%Q).
  { change 0%Q with (inject_Z 0). rewrite <- Zlt_Qlt. lia. }
  set (w0 := (inject_Z q + inject_Z r / inject_Z (Zpos my))%Q).
  pose proof (new_location_located q (Zpos my) r ltac:(lia) DM2) as Loc.
  fold w0 in Loc.
  assert (W0 : (w0 == inject_Z (Zpos mx) * pow2 s / inject_Z (Zpos my))%Q).
  { subst w0. rewrite (pow2_Z s Hs), <- inject_Z_mult. fold m'. rewrite DM1.
    rewrite inject_Z_plus, inject_Z_mult. field. lra. }
  assert (Es : (pow2 s * pow2 e' * pow2 ey == pow2 ex)%Q).
  { rewrite <- !pow2_add. replace (s + e' + ey) with ex by (subst s; ring).
    reflexivity. }
  assert (V : (SF2Q (S754_finite sx mx ex) / SF2Q (S754_finite sy my ey)
               == sgnQ (xorb sx sy) * (w0 * pow2 e'))%Q).
  { rewrite !SF2Q_finite, sgnQ_xorb, W0, <- Es.
    destruct sx, sy; cbn [sgnQ]; field; lra. }
  assert (Vp : (0 < w0 * pow2 e')%Q).
  { rewrite W0. apply Qmult_lt_0_compat; [|lra].
    apply Qlt_shift_div_l; [lra|]. rewrite Qmult_0_l.
    apply Qmult_lt_0_compat; lra. }
  rewrite V, Qabs_sgnQ in Hlo, Hhi by lra.
  (* the quotient is below 2^(D+1) *)
  pose proof (mantissa_band (Zpos mx) ex ltac:(lia)) as [_ Bx]. fold d1 in Bx.
  pose proof (mantissa_band (Zpos my) ey ltac:(lia)) as [By _]. fold d2 in By.
  assert (Vu : (w0 * pow2 e' < pow2 (D + 1))%Q).
  { assert (E1 : (w0 * pow2 e' * (inject_Z (Zpos my) * pow2 ey)
                  == inject_Z (Zpos mx) * pow2 ex)%Q).
    { rewrite W0, <- Es. field. lra. }
    assert (E2 : (pow2 (D + 1) * pow2 (d2 - 1 + ey) == pow2 (d1 + ex))%Q).
    { rewrite <- pow2_add. replace (D + 1 + (d2 - 1 + ey)) with (d1 + ex)
        by (subst D; ring). reflexivity. }
    pose proof (pow2_pos (d2 - 1 + ey)) as P2.
    destruct (Qlt_le_dec (w0 * pow2 e') (pow2 (D + 1))) as [C|C]; [exact C|exfalso].
    assert (pow2 (D + 1) * pow2 (d2 - 1 + ey)
            <= w0 * pow2 e' * (inject_Z (Zpos my) * pow2 ey))%Q; [|lra].
    eapply Qle_trans.
    - apply Qmult_le_compat_r; [exact C|lra].
    - rewrite (Qmult_comm (w0 * pow2 e')), (Qmult_comm (w0 * pow2 e')).
      apply Qmult_le_compat_r; [exact By|lra]. }
  assert (Dn : emin + prec <= D).
  { assert (emin + prec < D + 1); [|lia].
    apply pow2_lt_inv. eapply Qle_lt_trans; [exact Hlo|exact Vu]. }
  assert (FD : fexp D = D - prec) by (unfold SpecFloat.fexp; fold emin; lia).
  assert (He' : e' <= D - prec) by (subst e'; lia).
  (* the integer quotient has at least D - e' digits *)
  set (k := D - e' - 1).
  assert (Hk : 0 <= k) by (subst k; lia).
  pose proof (Zdigits2_bounds (Zpos mx) ltac:(lia)) as [Zx _]. fold d1 in Zx.
  pose proof (Zdigits2_bounds (Zpos my) ltac:(lia)) as [_ Zy]. fold d2 in Zy.
  assert (D1 : 1 <= d1) by (subst d1; simpl; lia).
  assert (D2 : 1 <= d2) by (subst d2; simpl; lia).
  assert (Q1 : 2 ^ k <= q).
  { assert (Eq : q = m' / Zpos my).
    { apply Z.div_unique with (r := r); [left; lia|exact DM1]. }
    rewrite Eq. apply Z.div_le_lower_bound; [lia|].
    subst m'.
    assert (E3 : 2 ^ (d1 - 1) * 2 ^ s = 2 ^ d2 * 2 ^ k).
    { rewrite <- !Z.pow_add_r by lia. f_equal. subst k s D. ring. }
    assert (0 < 2 ^ k) by (apply Z.pow_pos_nonneg; lia).
    assert (0 < 2 ^ s) by (apply Z.pow_pos_nonneg; lia).
    nia. }
  assert (Qp : 0 < q).
  { assert (0 < 2 ^ k) by (apply Z.pow_pos_nonneg; lia). lia. }
  assert (Dq : D - e' <= Zdigits2 q).
  { pose proof (Zdigits2_mono (2 ^ k) q) as Mn.
    rewrite Zdigits2_pow2 in Mn by exact Hk.
    assert (0 <= 2 ^ k) by (apply Z.pow_nonneg; lia).
    specialize (Mn ltac:(lia)). subst k. lia. }
  pose proof (mantissa_band q e' Qp) as [Bq _].
  pose proof (located_bounds _ _ Loc) as [Wl _].
  rewrite shr_m_of_loc in Wl.
  assert (Mu : Zdigits2 q + e' - 1 < emax - prec).
  { apply pow2_lt_inv.
    replace (Zdigits2 q + e' - 1) with (Zdigits2 q - 1 + e') by ring.
    eapply Qle_lt_trans; [exact Bq|]. eapply Qle_lt_trans; [|exact Hhi].
    apply Qmult_le_compat_r; [exact Wl|lra]. }
  destruct (round_normal prec emax prec_pos (xorb sx sy) q e'
              (new_location (Zpos my) r) w0 Qp Loc)
    as (m & e & Eq & Hd & R); try lia.
  exists m, e. split; [exact Eq|]. split; [exact Hd|].
  eapply rel_err_ext; [reflexivity| | |apply (rel_err_scale (sgnQ (xorb sx sy))); exact R].
  - rewrite SF2Q_finite. reflexivity.
  - rewrite V. reflexivity.
Qed.

End Operations.

(** ** Conversions between formats *)

Lemma iter_xO (m d : positive) :
  Zpos (Pos.iter xO m d) = Zpos m * 2 ^ Zpos d.
Proof.
  induction d as [|d IH] using Pos.peano_ind.
  - cbn. lia.
  - rewrite Pos.iter_succ, Pos2Z.inj_xO, IH, Pos2Z.inj_succ, Z.pow_succ_r by lia.
    ring.
Qed.

Lemma shl_align_spec (mx : positive) (ex e0 : Z) :
  snd (shl_align mx ex e0) = Z.min ex e0
  /\ Zpos (fst (shl_align mx ex e0)) = Zpos mx * 2 ^ (ex - Z.min ex e0).
Proof.
  unfold shl_align.
  change (IntDef.Z.sub e0 ex) with (e0 - ex).
  destruct (e0 - ex) as [|d|d] eqn:D; cbn [fst snd].
  - replace (Z.min ex e0) with ex by lia. rewrite Z.sub_diag. split; lia.
  - replace (Z.min ex e0) with ex by lia. rewrite Z.sub_diag. split; lia.
  - replace (Z.min ex e0) with e0 by lia. split; [reflexivity|].
    change (PosDef.Pos.iter xO mx d) with (Pos.iter xO mx d).
    rewrite iter_xO. f_equal. f_equal. lia.
Qed.

Section Conversions.

Variables prec emax : Z.
Hypothesis prec_pos : 0 < prec.
Hypothesis emax_ge_2 : 2 <= emax.

Local Abbreviation fexp := (fexp prec emax).
Local Abbreviation emin := (emin prec emax).

(** [binary_round]: the value [mx * 2^ex] rounded to the format. *)
Lemma binary_round_spec (sx : bool) (mx : positive) (ex : Z) :
  let M := Zdigits2 (Zpos mx) + ex in
  let v := (inject_Z (Zpos mx) * pow2 ex)%Q in
  exists m e,
    0 <= m
    /\ binary_round prec emax sx mx ex = mk_float prec emax sx m e
    /\ fexp M <= e <= fexp M + 1
    /\ Zdigits2 m <= prec
    /\ (Qabs (inject_Z m * pow2 e - v) <= pow2 (fexp M) * (1 # 2))%Q
    /\ (fexp M <= ex -> (inject_Z m * pow2 e == v)%Q).
Proof.
  intros M v. unfold binary_round.
  change (IntDef.Z.add (Zpos (digits2_pos mx)) ex) with M.
  destruct (shl_align_spec mx ex (fexp M)) as [A1 A2].
  destruct (shl_align mx ex (fexp M)) as [mz ez]. cbn [fst snd] in A1, A2.
  assert (Hk : 0 <= ex - Z.min ex (fexp M)) by lia.
  assert (Dz : Zdigits2 (Zpos mz) + ez = M).
  { rewrite A2, Zdigits2_mul_pow2 by lia. subst M ez. ring. }
  assert (Vz : (inject_Z (Zpos mz) * pow2 ez == v)%Q).
  { subst v. rewrite A2, inject_Z_mult, <- (pow2_Z _ Hk).
    rewrite <- Qmult_assoc, <- pow2_add.
    replace (ex - Z.min ex (fexp M) + ez) with ex by (subst ez; ring).
    reflexivity. }
  destruct (binary_round_aux_spec prec emax prec_pos sx (Zpos mz) ez loc_Exact
              (inject_Z (Zpos mz)) ltac:(lia)
              ltac:(unfold located; cbn; reflexivity))
    as (m & e & M0 & Eq & He & Hd & Herr & Hex).
  rewrite Dz in He, Herr, Hex.
  replace (Z.max ez (fexp M)) with (fexp M) in He, Herr by lia.
  exists m, e. split; [exact M0|]. split; [exact Eq|]. split; [exact He|].
  split; [exact Hd|]. split.
  - rewrite <- Vz. exact Herr.
  - intros H. rewrite <- Vz. apply Hex; [reflexivity|lia].
Qed.

(** A value that fits the format converts exactly. *)
Lemma binary_round_exact (sx : bool) (mx : positive) (ex : Z) :
  let M := Zdigits2 (Zpos mx) + ex in
  fexp M <= ex -> M < emax -> emin + prec < emax ->
  exists m e,
    binary_round prec emax sx mx ex = S754_finite sx m e
    /\ Zdigits2 (Zpos m) <= prec
    /\ (inject_Z (Zpos m) * pow2 e == inject_Z (Zpos mx) * pow2 ex)%Q.
Proof.
  intros M Hf Ho Hr.
  destruct (binary_round_spec sx mx ex) as (m & e & M0 & Eq & He & Hd & _ & Hex).
  fold M in He, Hex. specialize (Hex Hf).
  assert (Vp : (0 < inject_Z (Zpos mx) * pow2 ex)%Q).
  { pose proof (pow2_pos ex). apply Qmult_lt_0_compat; [|lra].
    change 0%Q with (inject_Z 0). rewrite <- Zlt_Qlt. lia. }
  destruct m as [|p|p]; try lia.
  { exfalso. rewrite <- Hex in Vp. change (inject_Z 0) with 0%Q in Vp. lra. }
  exists p, e. split; [|split; [exact Hd|exact Hex]].
  rewrite Eq. unfold mk_float.
  replace (e <=? emax - prec) with true; [reflexivity|].
  symmetry. apply Z.leb_le. unfold SpecFloat.fexp in He. fold emin in He. lia.
Qed.

(** Rounding to the format in general: an infinity of the same sign, or
    a number within a relative [2^-prec] plus an absolute [2^(emin-1)]. *)
Lemma binary_round_general (sx : bool) (mx : positive) (ex : Z) :
  let v := (inject_Z (Zpos mx) * pow2 ex)%Q in
  binary_round prec emax sx mx ex = S754_infinity sx
  \/ exists m e,
       0 <= m
       /\ binary_round prec emax sx mx ex = mk_float prec emax sx m e
       /\ emin <= e <= emax - prec
       /\ Zdigits2 m <= prec
       /\ (Qabs (inject_Z m * pow2 e - v)
           <= pow2 (- prec) * v + pow2 (emin - 1))%Q.
Proof.
  intros v.
  destruct (binary_round_spec sx mx ex) as (m & e & M0 & Eq & He & Hd & Herr & _).
  fold v in Herr.
  set (M := Zdigits2 (Zpos mx) + ex) in *.
  destruct (Z_le_gt_dec e (emax - prec)) as [C|C].
  - right. exists m, e. split; [exact M0|]. split; [exact Eq|].
    pose proof (fexp_ge_emin prec emax M).
    split; [lia|]. split; [exact Hd|].
    eapply Qle_trans; [exact Herr|].
    pose proof (mantissa_band (Zpos mx) ex ltac:(lia)) as [Bl _]. fold M v in Bl.
    pose proof (pow2_pos (- prec)) as P1. pose proof (pow2_pos (emin - 1)) as P2.
    pose proof (pow2_pos (M - 1)) as P3.
    unfold SpecFloat.fexp. fold emin.
    destruct (Z_le_gt_dec (M - prec) emin) as [K|K].
    + replace (Z.max (M - prec) emin) with emin by lia.
      rewrite pow2_pred. 
      assert (0 <= pow2 (- prec) * v)%Q.
      { apply Qmult_le_0_compat; [lra|].
        replace (M - 1) with (Zdigits2 (Zpos mx) - 1 + ex) in P3 by (subst M; ring).
        lra. }
      generalize dependent (pow2 emin). intros. unfold Qdiv.
      change (/ 2)%Q with (1 # 2)%Q. lra.
    + replace (Z.max (M - prec) emin) with (M - prec) by lia.
      assert (P : (pow2 (M - prec) * (1 # 2) == pow2 (- prec) * pow2 (M - 1))%Q).
      { rewrite <- pow2_add. replace (- prec + (M - 1)) with ((M - prec) - 1) by ring.
        rewrite pow2_pred. generalize (pow2 (M - prec)); intros; field. }
      rewrite P.
      assert (pow2 (- prec) * pow2 (M - 1) <= pow2 (- prec) * v)%Q; [|lra].
      rewrite (Qmult_comm (pow2 (- prec))), (Qmult_comm (pow2 (- prec))).
      apply Qmult_le_compat_r; [|lra].
      replace (M - 1) with (Zdigits2 (Zpos mx) - 1 + ex) by (subst M; ring).
      exact Bl.
  - left. rewrite Eq. unfold mk_float.
    destruct m as [|p|p]; try lia.
    + exfalso. (* a zero mantissa is not shifted up to an overflow *)
      revert Herr. change (inject_Z 0) with 0%Q.
      pose proof (mantissa_band (Zpos mx) ex ltac:(lia)) as [Bl _]. fold M v in Bl.
      intros Herr.
      setoid_replace (0 * pow2 e - v)%Q with (- v)%Q in Herr by ring.
      assert (Vp : (0 < v)%Q).
      { pose proof (pow2_pos (Zdigits2 (Zpos mx) - 1 + ex)). lra. }
      rewrite Qabs_opp, Qabs_pos in Herr by lra.
      (* v <= 2^(fexp M - 1) and v >= 2^(M-1) force fexp M = emin > ... *)
      assert (L : (pow2 (M - 1) <= pow2 (fexp M - 1))%Q).
      { rewrite (pow2_pred (fexp M)). unfold Qdiv. change (/ 2)%Q with (1 # 2)%Q.
        replace (M - 1) with (Zdigits2 (Zpos mx) - 1 + ex) by (subst M; ring). lra. }
      apply pow2_le_inv in L. unfold SpecFloat.fexp, SpecFloat.emin in L, He, C.
      lia.
    + replace (e <=? emax - prec) with false; [reflexivity|].
      symmetry. apply Z.leb_gt. lia.
Qed.

End Conversions.

(** ** Magnitude bands *)

Lemma in_band_ext (lo hi : Z) (v v' : Q) :
  (v == v')%Q -> in_band lo hi v -> in_band lo hi v'.
Proof. unfold in_band. intros ->. auto. Qed.

#[global] Instance in_band_proper (lo hi : Z) :
  Proper (Qeq ==> iff) (in_band lo hi).
Proof.
  intros v v' Hv. split; apply in_band_ext; [|symmetry]; assumption.
Qed.

Lemma in_band_weaken (lo hi lo' hi' : Z) (v : Q) :
  lo' <= lo -> hi <= hi' -> in_band lo hi v -> in_band lo' hi' v.
Proof.
  unfold in_band. intros H1 H2 [L U].
  pose proof (pow2_le _ _ H1). pose proof (pow2_le _ _ H2). split; lra.
Qed.

Lemma in_band_nonzero (lo hi : Z) (v : Q) : in_band lo hi v -> ~ (v == 0)%Q.
Proof.
  unfold in_band. intros [L _] E. rewrite E in L. change (Qabs 0) with 0%Q in L.
  pose proof (pow2_pos lo). lra.
Qed.

Lemma Qmult_le_compat_nonneg (a b c d : Q) :
  (0 <= a -> a <= b -> 0 <= c -> c <= d -> a * c <= b * d)%Q.
Proof.
  intros Ha Hab Hc Hcd.
  apply Qle_trans with (b * c)%Q.
  - apply Qmult_le_compat_r; assumption.
  - rewrite (Qmult_comm b c), (Qmult_comm b d).
    apply Qmult_le_compat_r; lra.
Qed.

Lemma in_band_mul (a b c d : Z) (x y : Q) :
  in_band a b x -> in_band c d y -> in_band (a + c) (b + d) (x * y).
Proof.
  unfold in_band. intros [L1 U1] [L2 U2].
  rewrite Qabs_Qmult, !pow2_add.
  pose proof (pow2_pos a). pose proof (pow2_pos c).
  split.
  - apply Qmult_le_compat_nonneg; lra.
  - apply Qlt_le_trans with (pow2 b * Qabs y)%Q.
    + apply Qmult_lt_compat_r; lra.
    + rewrite (Qmult_comm (pow2 b) (Qabs y)), (Qmult_comm (pow2 b) (pow2 d)).
      apply Qmult_le_compat_r; lra.
Qed.

Lemma in_band_inv (c d : Z) (y : Q) :
  in_band c d y -> in_band (- d) (- c + 1) (/ y).
Proof.
  unfold in_band. intros [L U].
  pose proof (pow2_pos c) as Pc. pose proof (pow2_pos d) as Pd.
  rewrite Qabs_Qinv. rewrite pow2_succ, !pow2_opp.
  assert (Py : (0 < Qabs y)%Q) by lra.
  split.
  - apply Qle_shift_inv_l; [exact Py|].
    assert (E : (/ pow2 d * Qabs y == Qabs y / pow2 d)%Q) by (field; lra).
    rewrite E. apply Qle_shift_div_r; [exact Pd|]. lra.
  - apply Qlt_shift_inv_r; [exact Py|].
    assert (E : (2 * / pow2 c * Qabs y == 2 * Qabs y / pow2 c)%Q) by (field; lra).
    rewrite E. apply Qlt_shift_div_l; [exact Pc|]. lra.
Qed.

Lemma in_band_div (a b c d : Z) (x y : Q) :
  in_band a b x -> in_band c d y -> in_band (a - d) (b - c + 1) (x / y).
Proof.
  intros Hx Hy. unfold Qdiv.
  replace (a - d) with (a + - d) by ring.
  replace (b - c + 1) with (b + (- c + 1)) by ring.
  apply in_band_mul; [exact Hx|]. now apply in_band_inv.
Qed.

Lemma in_band_rel (eps : Q) (lo hi : Z) (x v : Q) :
  (0 <= eps)%Q -> (eps <= 1 # 2)%Q -> rel_err eps x v ->
  in_band lo hi v -> in_band (lo - 1) (hi + 1) x.
Proof.
  intros H0 H1 R [L U].
  destruct (rel_err_band eps x v _ _ H0 H1 R L U) as [A B].
  unfold in_band. rewrite pow2_pred, pow2_succ. unfold Qdiv.
  change (/ 2)%Q with (1 # 2)%Q. split; lra.
Qed.

(** ** The two constants *)

Lemma PI_band : in_band 1 2 (SF2Q PI).
Proof. unfold in_band. split; [apply Qle_bool_iff|apply Qlt_alt]; reflexivity. Qed.

Lemma CM_band : in_band 1 2 (SF2Q CM).
Proof. unfold in_band. split; [apply Qle_bool_iff|apply Qlt_alt]; reflexivity. Qed.

(** [PI] and [CM] are the doubles nearest to 3.14159 and 2.54. *)
Lemma PI_rel : rel_err (pow2 (-53)) (SF2Q PI) PI_decimal.
Proof. unfold rel_err. apply Qle_bool_iff. vm_compute. reflexivity. Qed.

Lemma CM_rel : rel_err (pow2 (-53)) (SF2Q CM) CM_decimal.
Proof. unfold rel_err. apply Qle_bool_iff. vm_compute. reflexivity. Qed.

(** ** Values of type [float] *)

Lemma valid_float_bounds (s : bool) (m : positive) (e : Z) :
  valid_binary Fmt.prec32 Fmt.emax32 (S754_finite s m e) = true ->
  Zdigits2 (Zpos m) <= 24 /\ -149 <= e <= 104.
Proof.
  unfold valid_binary, bounded, canonical_mantissa, SpecFloat.fexp, SpecFloat.emin,
    Fmt.prec32, Fmt.emax32.
  intros H. apply andb_true_iff in H. destruct H as [H1 H2].
  apply Z.eqb_eq in H1. apply Z.leb_le in H2.
  change (Zdigits2 (Zpos m)) with (Zpos (digits2_pos m)). lia.
Qed.

Lemma float_sized_band (s : bool) (m : positive) (e : Z) :
  float_sized (S754_finite s m e) ->
  in_band (-149) 128 (SF2Q (S754_finite s m e)).
Proof.
  unfold float_sized. intros [Hd He]. unfold in_band. rewrite SF2Q_abs.
  pose proof (mantissa_band (Zpos m) e ltac:(lia)) as [Bl Bu].
  assert (1 <= Zdigits2 (Zpos m)) by (simpl; lia).
  split.
  - eapply Qle_trans; [|exact Bl]. apply pow2_le. lia.
  - eapply Qlt_le_trans; [exact Bu|]. apply pow2_le. lia.
Qed.

(** The promotion to [double] is exact. *)
Lemma double_of_float_exact (s : bool) (m : positive) (e : Z) :
  float_sized (S754_finite s m e) ->
  exists m' e',
    double_of_float (S754_finite s m e) = S754_finite s m' e'
    /\ (SF2Q (S754_finite s m' e') == SF2Q (S754_finite s m e))%Q.
Proof.
  unfold float_sized. intros [Hd He].
  assert (1 <= Zdigits2 (Zpos m)) by (simpl; lia).
  destruct (binary_round_exact Fmt.prec64 Fmt.emax64 ltac:(reflexivity) s m e)
    as (m' & e' & Eq & _ & V).
  - unfold SpecFloat.fexp, SpecFloat.emin, Fmt.prec64, Fmt.emax64. lia.
  - unfold Fmt.emax64. lia.
  - unfold SpecFloat.emin, Fmt.prec64, Fmt.emax64. lia.
  - exists m', e'. split.
    + unfold double_of_float, binary_normalize. destruct s; exact Eq.
    + rewrite !SF2Q_finite, V. reflexivity.
Qed.

(** ** The conversion to [float] *)

Lemma binary_round_no_overflow (prec emax : Z) (sx : bool) (mx : positive) (ex : Z) :
  0 < prec -> 2 <= emax ->
  (inject_Z (Zpos mx) * pow2 ex < pow2 (emax - 1))%Q ->
  binary_round prec emax sx mx ex <> S754_infinity sx.
Proof.
  intros Hp He Hv.
  destruct (binary_round_spec prec emax Hp sx mx ex) as (m & e & M0 & Eq & Hb & _).
  pose proof (mantissa_band (Zpos mx) ex ltac:(lia)) as [Bl _].
  assert (M1 : Zdigits2 (Zpos mx) - 1 + ex < emax - 1).
  { apply pow2_lt_inv. eapply Qle_lt_trans; [exact Bl|exact Hv]. }
  rewrite Eq. unfold mk_float. destruct m as [|p|p]; try discriminate.
  replace (e <=? emax - prec) with true; [discriminate|].
  symmetry. apply Z.leb_le.
  unfold SpecFloat.fexp, SpecFloat.emin in Hb. lia.
Qed.

Lemma SF2Q_mk_float (prec emax : Z) (s : bool) (m e : Z) :
  0 <= m -> e <= emax - prec ->
  (SF2Q (mk_float prec emax s m e) == sgnQ s * (inject_Z m * pow2 e))%Q
  /\ is_number (mk_float prec emax s m e) = true.
Proof.
  intros Hm He. unfold mk_float. destruct m as [|p|p]; try lia.
  - split; [|reflexivity]. cbn [SF2Q]. change (inject_Z 0) with 0%Q. ring.
  - replace (e <=? emax - prec) with true by (symmetry; apply Z.leb_le; exact He).
    split; [apply SF2Q_finite|reflexivity].
Qed.

(** The conversion of a finite [double] to [float]. *)
Lemma float_of_double_correct (s : bool) (m : positive) (e : Z) :
  let z := S754_finite s m e in
  float_of_double z = S754_infinity s
  \/ (is_number (float_of_double z) = true
      /\ float_sized (float_of_double z)
      /\ (Qabs (SF2Q (float_of_double z) - SF2Q z)
          <= pow2 (-24) * Qabs (SF2Q z) + pow2 (-150))%Q).
Proof.
  intros z.
  assert (Eq : float_of_double z = binary_round Fmt.prec32 Fmt.emax32 s m e).
  { unfold z, float_of_double, binary_normalize. destruct s; reflexivity. }
  rewrite Eq.
  destruct (binary_round_general Fmt.prec32 Fmt.emax32 ltac:(reflexivity)
              ltac:(unfold Fmt.emax32; lia) s m e)
    as [Inf|(m' & e' & M0 & Eq' & He & Hd & Herr)]; [left; exact Inf|right].
  destruct (SF2Q_mk_float Fmt.prec32 Fmt.emax32 s m' e' M0 ltac:(lia)) as [V N].
  rewrite Eq'. split; [exact N|]. split.
  - unfold mk_float. destruct m' as [|p|p]; try exact I.
    destruct (e' <=? Fmt.emax32 - Fmt.prec32); [|exact I].
    unfold float_sized, SpecFloat.emin, Fmt.prec32, Fmt.emax32 in *. lia.
  - rewrite V. unfold z. rewrite SF2Q_abs, SF2Q_finite.
    setoid_replace (sgnQ s * (inject_Z m' * pow2 e')
                    - sgnQ s * (inject_Z (Zpos m) * pow2 e))%Q
      with (sgnQ s * (inject_Z m' * pow2 e' - inject_Z (Zpos m) * pow2 e))%Q by ring.
    rewrite Qabs_Qmult.
    assert (S1 : (Qabs (sgnQ s) == 1)%Q) by (destruct s; reflexivity).
    rewrite S1, Qmult_1_l. exact Herr.
Qed.

Lemma float_of_double_finite (s : bool) (m : positive) (e : Z) :
  (Qabs (SF2Q (S754_finite s m e)) < pow2 127)%Q ->
  float_of_double (S754_finite s m e) <> S754_infinity s.
Proof.
  intros H. rewrite SF2Q_abs in H.
  assert (Eq : float_of_double (S754_finite s m e)
               = binary_round Fmt.prec32 Fmt.emax32 s m e).
  { unfold float_of_double, binary_normalize. destruct s; reflexivity. }
  rewrite Eq. apply binary_round_no_overflow;
    [reflexivity|unfold Fmt.emax32; lia|exact H].
Qed.

(** ** The radius in inches *)

Lemma inch_radius_correct (s : bool) (m : positive) (e : Z) :
  let r := S754_finite s m e in
  float_sized r ->
  exists mx ex,
    inch_radius r = S754_finite s mx ex
    /\ rel_err u64 (SF2Q (inch_radius r)) (SF2Q r / SF2Q CM)
    /\ in_band (-152) 129 (SF2Q (inch_radius r)).
Proof.
  intros r Hr. subst r.
  destruct (double_of_float_exact s m e Hr) as (m' & e' & Ed & Vd).
  pose proof (float_sized_band s m e Hr) as Br.
  set (r := S754_finite s m e) in *.
  assert (Bq : in_band (-151) 128 (SF2Q r / SF2Q CM)).
  { pose proof (in_band_div _ _ _ _ _ _ Br CM_band) as B.
    eapply in_band_weaken; [| |exact B]; lia. }
  unfold inch_radius, ddiv. rewrite Ed.
  destruct (SFdiv_correct Fmt.prec64 Fmt.emax64 ltac:(reflexivity)
              s m' e' false 5719571526760530 (-51)) as (mx & ex & Eq & _ & R).
  - change (S754_finite false 5719571526760530 (-51)) with CM. rewrite Vd.
    destruct Bq as [L _]. eapply Qle_trans; [|exact L]. apply pow2_le.
    unfold SpecFloat.emin, Fmt.prec64, Fmt.emax64. lia.
  - change (S754_finite false 5719571526760530 (-51)) with CM. rewrite Vd.
    destruct Bq as [_ U]. eapply Qlt_le_trans; [exact U|]. apply pow2_le.
    unfold Fmt.prec64, Fmt.emax64. lia.
  - change (S754_finite false 5719571526760530 (-51)) with CM in Eq, R.
    rewrite xorb_false_r in Eq, R. rewrite Vd in R.
    exists mx, ex. rewrite Eq. split; [reflexivity|]. split; [exact R|].
    pose proof (in_band_rel u64 _ _ _ _ ltac:(discriminate) ltac:(discriminate) R Bq) as B.
    exact B.
Qed.

Lemma u64_nonneg : (0 <= u64)%Q.
Proof. discriminate. Qed.

Lemma Qle_closed (a b : Q) : Qle_bool a b = true -> (a <= b)%Q.
Proof. apply Qle_bool_iff. Qed.

(** The quotient by the macro against the quotient by 2.54. *)
Lemma inch_radius_decimal (s : bool) (m : positive) (e : Z) :
  let r := S754_finite s m e in
  float_sized r ->
  rel_err (4 * u64) (SF2Q (inch_radius r)) (SF2Q r / CM_decimal).
Proof.
  intros r Hr. subst r.
  destruct (inch_radius_correct s m e Hr) as (mx & ex & _ & R & _).
  set (r := S754_finite s m e) in *.
  assert (D : rel_err (2 * u64) (SF2Q r / SF2Q CM) (SF2Q r / CM_decimal)).
  { apply rel_err_div; [apply u64_nonneg|discriminate|discriminate|exact CM_rel]. }
  eapply rel_err_weaken;
    [|apply (rel_err_trans (2 * u64) u64 _ _ _ ltac:(discriminate) u64_nonneg D R)].
  apply Qle_closed. vm_compute. reflexivity.
Qed.

(** ** Round trip through inches (C7) *)

Lemma roundtrip_finite (s : bool) (m : positive) (e : Z) :
  let r := S754_finite s m e in
  float_sized r ->
  exists mb eb,
    inches_to_cm (inch_radius r) = S754_finite s mb eb
    /\ rel_err (pow2 (-51)) (SF2Q (inches_to_cm (inch_radius r))) (SF2Q r).
Proof.
  intros r Hr. subst r.
  destruct (inch_radius_correct s m e Hr) as (mx & ex & Ex & R & B).
  set (r := S754_finite s m e) in *.
  unfold inches_to_cm, dmul. rewrite Ex in *.
  pose proof (in_band_mul _ _ _ _ _ _ B CM_band) as Bp.
  destruct (SFmul_correct Fmt.prec64 Fmt.emax64 ltac:(reflexivity)
              s mx ex false 5719571526760530 (-51)) as (mb & eb & Eq & _ & Rb).
  - change (S754_finite false 5719571526760530 (-51)) with CM.
    destruct Bp as [L _]. eapply Qle_trans; [|exact L]. apply pow2_le.
    unfold SpecFloat.emin, Fmt.prec64, Fmt.emax64. lia.
  - change (S754_finite false 5719571526760530 (-51)) with CM.
    destruct Bp as [_ U]. eapply Qlt_le_trans; [exact U|]. apply pow2_le.
    unfold Fmt.prec64, Fmt.emax64. lia.
  - change (S754_finite false 5719571526760530 (-51)) with CM in Eq, Rb.
    rewrite xorb_false_r in Eq, Rb.
    exists mb, eb. rewrite Eq. split; [reflexivity|].
    pose proof (rel_err_mul u64 0 _ _ _ _ u64_nonneg ltac:(discriminate) R
                  (rel_err_refl (SF2Q CM))) as Rm.
    assert (Ec : (SF2Q r / SF2Q CM * SF2Q CM == SF2Q r)%Q).
    { field. exact (in_band_nonzero _ _ _ CM_band). }
    rewrite Ec in Rm.
    eapply rel_err_weaken;
      [|apply (rel_err_trans (u64 + 0 + u64 * 0) u64 _ _ _
                 ltac:(discriminate) u64_nonneg Rm Rb)].
    apply Qle_closed. vm_compute. reflexivity.
Qed.

(** ** Tactics for closed side conditions *)

Ltac closed_Qle := apply Qle_closed; vm_compute; reflexivity.

Ltac band_side B :=
  first
    [ destruct B as [L _]; eapply Qle_trans; [|exact L]; apply pow2_le;
      unfold SpecFloat.emin, Fmt.prec64, Fmt.emax64; lia
    | destruct B as [_ U]; eapply Qlt_le_trans; [exact U|]; apply pow2_le;
      unfold Fmt.prec64, Fmt.emax64; lia ].

(** ** The area in [double] *)

Lemma area_double_correct (s : bool) (m : positive) (e : Z) :
  let r := S754_finite s m e in
  float_sized r ->
  exists mz ez,
    area_double r = S754_finite false mz ez
    /\ rel_err (15 * u64) (SF2Q (area_double r)) (exact_area (SF2Q r))
    /\ in_band (-305) 262 (SF2Q (area_double r)).
Proof.
  intros r Hr. subst r.
  destruct (inch_radius_correct s m e Hr) as (mx & ex & Ex & _ & Bx).
  pose proof (inch_radius_decimal s m e Hr) as Rx.
  set (r := S754_finite s m e) in *.
  rewrite Ex in Bx, Rx.
  set (x := S754_finite s mx ex) in *.
  (* y = PI * x *)
  pose proof (in_band_mul _ _ _ _ _ _ PI_band Bx) as B1.
  destruct (SFmul_correct Fmt.prec64 Fmt.emax64 ltac:(reflexivity)
              false 7074231776675438 (-51) s mx ex) as (my & ey & Ey & _ & Ry);
    change (S754_finite false 7074231776675438 (-51)) with PI in *; fold x;
    [band_side B1|band_side B1|].
  fold x in Ey, Ry. rewrite xorb_false_l in Ey, Ry.
  set (y := S754_finite s my ey) in *.
  pose proof (in_band_rel u64 _ _ _ _ u64_nonneg ltac:(discriminate) Ry B1) as By.
  (* z = y * x *)
  pose proof (in_band_mul _ _ _ _ _ _ By Bx) as B2.
  destruct (SFmul_correct Fmt.prec64 Fmt.emax64 ltac:(reflexivity)
              s my ey s mx ex) as (mz & ez & Ez & _ & Rz);
    fold x y; [band_side B2|band_side B2|].
  fold x y in Ez, Rz. rewrite xorb_nilpotent in Ez, Rz.
  assert (Ead : area_double r = S754_finite false mz ez).
  { unfold area_double. fold (inch_radius r). rewrite Ex. unfold dmul.
    rewrite Ey. exact Ez. }
  rewrite Ead.
  exists mz, ez. split; [reflexivity|].
  (* accuracy *)
  set (xe := (SF2Q r / CM_decimal)%Q) in *.
  set (e1 := (u64 + 4 * u64 + u64 * (4 * u64))%Q).
  set (e2 := (e1 + u64 + e1 * u64)%Q).
  set (e3 := (e2 + 4 * u64 + e2 * (4 * u64))%Q).
  pose proof (rel_err_mul u64 (4 * u64) _ _ _ _ u64_nonneg ltac:(discriminate)
                PI_rel Rx) as R1.
  pose proof (rel_err_trans e1 u64 _ _ _ ltac:(discriminate) u64_nonneg R1 Ry) as R2.
  pose proof (rel_err_mul e2 (4 * u64) _ _ _ _ ltac:(discriminate)
                ltac:(discriminate) R2 Rx) as R3.
  pose proof (rel_err_trans e3 u64 _ _ _ ltac:(discriminate) u64_nonneg R3 Rz) as R4.
  split.
  - eapply rel_err_weaken; [|eapply rel_err_ext; [reflexivity|reflexivity| |exact R4]].
    + closed_Qle.
    + unfold exact_area. fold xe. change (xe ^ 2)%Q with (xe * xe)%Q. ring.
  - pose proof (in_band_rel u64 _ _ _ _ u64_nonneg ltac:(discriminate) Rz B2) as Bz.
    eapply in_band_weaken; [| |exact Bz]; lia.
Qed.

(** A [double] result within [2^-30] of the exact value, converted to
    [float]: within [2^-23] of the exact value, up to [2^-150]. *)
Lemma float_error_compose (a z v eps : Q) :
  (eps <= pow2 (-30))%Q ->
  rel_err eps z v ->
  (Qabs (a - z) <= pow2 (-24) * Qabs z + pow2 (-150))%Q ->
  (Qabs (a - v) <= pow2 (-23) * Qabs v + pow2 (-150))%Q.
Proof.
  intros He R H.
  apply (rel_err_weaken _ _ _ _ He) in R. unfold rel_err in R.
  assert (T1 : (Qabs (a - v) <= Qabs (a - z) + Qabs (z - v))%Q).
  { setoid_replace (a - v)%Q with ((a - z) + (z - v))%Q by ring.
    apply Qabs_triangle. }
  assert (T2 : (Qabs z <= Qabs v + Qabs (z - v))%Q).
  { setoid_replace z with (v + (z - v))%Q at 1 by ring.
    apply Qabs_triangle. }
  pose proof (Qabs_nonneg v) as Pv.
  change (pow2 (-30)) with (1 # 1073741824)%Q in R.
  change (pow2 (-24)) with (1 # 16777216)%Q in H.
  change (pow2 (-23)) with (1 # 8388608)%Q.
  generalize dependent (pow2 (-150)). intros c H.
  generalize dependent (Qabs (a - v)). generalize dependent (Qabs (a - z)).
  generalize dependent (Qabs (z - v)). generalize dependent (Qabs z).
  generalize dependent (Qabs v). intros. lra.
Qed.

(** ** The area as stored in [a] *)

Lemma area_correct (s : bool) (m : positive) (e : Z) :
  let r := S754_finite s m e in
  float_sized r ->
  (area r = S754_infinity false
   \/ (is_number (area r) = true
       /\ float_sized (area r)
       /\ (Qabs (SF2Q (area r) - exact_area (SF2Q r))
           <= pow2 (-23) * Qabs (exact_area (SF2Q r)) + pow2 (-150))%Q))
  /\ ((Qabs (SF2Q r) <= pow2 62)%Q -> area r <> S754_infinity false).
Proof.
  intros r Hr. subst r.
  destruct (area_double_correct s m e Hr) as (mz & ez & Ez & Rz & Bz).
  set (r := S754_finite s m e) in *.
  unfold area. rewrite Ez in *. split.
  - destruct (float_of_double_correct false mz ez) as [Inf|(N & F & Err)];
      [left; exact Inf|right].
    split; [exact N|]. split; [exact F|].
    eapply float_error_compose; [|exact Rz|exact Err].
    apply Qle_closed. vm_compute. reflexivity.
  - intros Hb. apply float_of_double_finite.
    (* |z| <= (1 + 15u) * exact, and exact <= PI * (2^62 / 2.54)^2 < 2^126 *)
    assert (T : (Qabs (SF2Q (S754_finite false mz ez))
                 <= Qabs (exact_area (SF2Q r))
                    + Qabs (SF2Q (S754_finite false mz ez) - exact_area (SF2Q r)))%Q).
    { setoid_replace (SF2Q (S754_finite false mz ez))
        with (exact_area (SF2Q r)
              + (SF2Q (S754_finite false mz ez) - exact_area (SF2Q r)))%Q at 1 by ring.
      apply Qabs_triangle. }
    unfold rel_err in Rz.
    assert (Ex : (Qabs (exact_area (SF2Q r)) <= pow2 124)%Q).
    { unfold exact_area.
      assert (E : (PI_decimal * (SF2Q r / CM_decimal) ^ 2
                   == (PI_decimal / (CM_decimal * CM_decimal)) * (SF2Q r * SF2Q r))%Q).
      { change ((SF2Q r / CM_decimal) ^ 2)%Q
          with ((SF2Q r / CM_decimal) * (SF2Q r / CM_decimal))%Q.
        field. discriminate. }
      rewrite E, !Qabs_Qmult.
      change (Qabs (PI_decimal / (CM_decimal * CM_decimal)))
        with (PI_decimal / (CM_decimal * CM_decimal))%Q.
      assert (S2 : (Qabs (SF2Q r) * Qabs (SF2Q r) <= pow2 62 * pow2 62)%Q).
      { pose proof (Qabs_nonneg (SF2Q r)).
        apply Qmult_le_compat_nonneg; lra. }
      rewrite <- pow2_add in S2. change (62 + 62) with 124 in S2.
      assert (PI_decimal / (CM_decimal * CM_decimal) <= 1)%Q by closed_Qle.
      pose proof (pow2_pos 124).
      assert (0 <= Qabs (SF2Q r) * Qabs (SF2Q r))%Q.
      { apply Qmult_le_0_compat; apply Qabs_nonneg. }
      assert (PI_decimal / (CM_decimal * CM_decimal) * (Qabs (SF2Q r) * Qabs (SF2Q r))
              <= 1 * pow2 124)%Q.
      { apply Qmult_le_compat_nonneg; try lra. discriminate. }
      lra. }
    assert (15 * u64 * Qabs (exact_area (SF2Q r)) <= 1 * pow2 124)%Q.
    { apply Qmult_le_compat_nonneg; try lra; try apply Qabs_nonneg; try discriminate. }
    assert (P : (pow2 127 == 8 * pow2 124)%Q) by reflexivity.
    rewrite P. pose proof (pow2_pos 124). lra.
Qed.

(** ** The circumference *)

(** [2 * PI] is exact: the constant [2] is a power of two. *)
Lemma two_PI :
  dmul (double_of_int 2) PI = S754_finite false 7074231776675438 (-50).
Proof. reflexivity. Qed.

Lemma two_PI_band : in_band 2 3 (SF2Q (S754_finite false 7074231776675438 (-50))).
Proof. unfold in_band. split; [apply Qle_bool_iff|apply Qlt_alt]; reflexivity. Qed.

Lemma two_PI_rel :
  rel_err u64 (SF2Q (S754_finite false 7074231776675438 (-50))) (2 * PI_decimal).
Proof. unfold rel_err. apply Qle_bool_iff. vm_compute. reflexivity. Qed.

Lemma circumference_double_correct (s : bool) (m : positive) (e : Z) :
  let r := S754_finite s m e in
  float_sized r ->
  exists mz ez,
    circumference_double r = S754_finite s mz ez
    /\ rel_err (8 * u64) (SF2Q (circumference_double r))
               (exact_circumference (SF2Q r))
    /\ in_band (-151) 133 (SF2Q (circumference_double r)).
Proof.
  intros r Hr. subst r.
  destruct (inch_radius_correct s m e Hr) as (mx & ex & Ex & _ & Bx).
  pose proof (inch_radius_decimal s m e Hr) as Rx.
  set (r := S754_finite s m e) in *.
  rewrite Ex in Bx, Rx.
  set (x := S754_finite s mx ex) in *.
  pose proof (in_band_mul _ _ _ _ _ _ two_PI_band Bx) as B1.
  destruct (SFmul_correct Fmt.prec64 Fmt.emax64 ltac:(reflexivity)
              false 7074231776675438 (-50) s mx ex) as (mz & ez & Ez & _ & Rz);
    fold x; [band_side B1|band_side B1|].
  fold x in Ez, Rz. rewrite xorb_false_l in Ez, Rz.
  assert (Ecd : circumference_double r = S754_finite s mz ez).
  { unfold circumference_double. fold (inch_radius r). rewrite Ex, two_PI.
    exact Ez. }
  rewrite Ecd. exists mz, ez. split; [reflexivity|].
  set (xe := (SF2Q r / CM_decimal)%Q) in *.
  set (e1 := (u64 + 4 * u64 + u64 * (4 * u64))%Q).
  pose proof (rel_err_mul u64 (4 * u64) _ _ _ _ u64_nonneg ltac:(discriminate)
                two_PI_rel Rx) as R1.
  pose proof (rel_err_trans e1 u64 _ _ _ ltac:(discriminate) u64_nonneg R1 Rz) as R2.
  split.
  - eapply rel_err_weaken; [|exact R2]. closed_Qle.
  - pose proof (in_band_rel u64 _ _ _ _ u64_nonneg ltac:(discriminate) Rz B1) as Bz.
    eapply in_band_weaken; [| |exact Bz]; lia.
Qed.


Local Open Scope string_scope.

(** ** The programs as event sequences *)

Section Runs.

Variable r0 : binary32.        (* the indeterminate initial value of [r] *)

Lemma ex1_main_run (input : list scan_item) (lg : list event) :
  ex1_main r0 (mkWorld input lg)
  = (mkWorld (match input with Num _ :: rest => rest | _ => input end)
             (lg ++ [Printed prompt;
                     Scanned (first_stored input);
                     Printed (area_line (shown (area (first_read r0 input))))]),
     0).
Proof.
  unfold ex1_main, printf0, printf_3_2f, scanf_f, area_line, shown;
    cbn [stdin log].
  destruct input as [|[f|] rest];
    cbn [stdin log first_read first_stored];
    repeat rewrite <- app_assoc; reflexivity.
Qed.

Lemma ex3_body_run (r : binary32) (input : list scan_item) (lg : list event) :
  ex3_body r (mkWorld input lg)
  = (first_read r input,
     mkWorld (match input with Num _ :: rest => rest | _ => input end)
             (lg ++ [Printed prompt;
                     Scanned (first_stored input);
                     Printed (area_line (shown (area (first_read r input))));
                     Printed (circumference_line
                                (shown (circumference (first_read r input))))])).
Proof.
  unfold ex3_body, printf0, printf_3_2f, scanf_f, area_line,
    circumference_line, shown; cbn [stdin log].
  destruct input as [|[f|] rest];
    cbn [stdin log first_read first_stored];
    repeat rewrite <- app_assoc; reflexivity.
Qed.

(** The loop only ever appends to the log. *)
Lemma ex3_loop_extends (fuel : nat) :
  forall r w w', ex3_loop fuel r w = Some w' ->
                 exists more, log w' = (log w ++ more)%list.
Proof.
  induction fuel as [|fuel IH]; intros r w w' H; cbn [ex3_loop] in H.
  - discriminate.
  - destruct (float_ne r (float_of_int 0)).
    + destruct w as [input lg]. rewrite ex3_body_run in H.
      apply IH in H. destruct H as [more H]. simpl in H.
      rewrite <- app_assoc in H. eexists; exact H.
    + inversion H; subst. exists []. now rewrite app_nil_r.
Qed.

(** More fuel never changes a result already reached. *)
Lemma ex3_loop_fuel_mono (fuel : nat) :
  forall r w w', ex3_loop fuel r w = Some w' ->
                 ex3_loop (S fuel) r w = Some w'.
Proof.
  induction fuel as [|fuel IH]; intros r w w' H.
  - discriminate.
  - cbn [ex3_loop] in H. cbn [ex3_loop].
    destruct (float_ne r (float_of_int 0)); [|exact H].
    destruct (ex3_body r w) as [r' w1]. now apply IH.
Qed.

End Runs.

(** [r != 0] is false exactly for the two zeros. *)
Lemma float_ne_zero_false (z : binary32) :
  float_ne z (float_of_int 0) = false <-> exists s, z = S754_zero s.
Proof.
  split.
  - destruct z as [s|s| |s m e]; try destruct s; cbn; try discriminate;
      eexists; reflexivity.
  - intros [s ->]. reflexivity.
Qed.

Lemma area_of_zero (s : bool) : area (S754_zero s) = S754_zero false.
Proof. destruct s; reflexivity. Qed.

Lemma circumference_of_zero (s : bool) : circumference (S754_zero s) = S754_zero s.
Proof. destruct s; reflexivity. Qed.

(** ** ex1.c: one pass, exit status, determinism *)

(** C5.  For every initial value of [r] and every standard input, ex1.c
    terminates with exit status 0 after exactly one prompt, one read and
    one area line, whether or not the read stored a value. *)
Theorem ex1_single_pass_exit_zero (r0 : binary32) (input : list scan_item) :
  ex1_main r0 (initial input)
  = (mkWorld (match input with Num _ :: rest => rest | _ => input end)
             [Printed prompt;
              Scanned (first_stored input);
              Printed (area_line (shown (area (first_read r0 input))))],
     0).
Proof. unfold initial. now rewrite ex1_main_run. Qed.

Lemma first_stored_read (r f : binary32) (input : list scan_item) :
  first_stored input = Some f -> first_read r input = f.
Proof.
  destruct input as [|[g|] rest]; simpl; intros H; try discriminate.
  now inversion H.
Qed.

Lemma append_empty_r (s : string) : s ++ "" = s.
Proof. induction s as [|c s IH]; cbn; [reflexivity | now rewrite IH]. Qed.

Lemma ex1_stdout (r0 f : binary32) (input : list scan_item) :
  first_stored input = Some f ->
  stdout (fst (ex1_main r0 (initial input)))
  = prompt ++ area_line (shown (area f)).
Proof.
  intros H. unfold initial. rewrite ex1_main_run.
  rewrite (first_stored_read r0 f input H).
  unfold stdout; cbn [fst log app text_of event_text].
  change ("" ++ ?x) with x. now rewrite append_empty_r.
Qed.

(** C10.  Two runs of ex1.c whose [scanf] stores the same radius write
    the same text, whatever the initial value of [r] and whatever follows
    on standard input: the text is a function of that radius alone. *)
Theorem ex1_deterministic (r1 r2 f : binary32) (in1 in2 : list scan_item) :
  first_stored in1 = Some f ->
  first_stored in2 = Some f ->
  stdout (fst (ex1_main r1 (initial in1)))
  = stdout (fst (ex1_main r2 (initial in2)))
  /\ stdout (fst (ex1_main r1 (initial in1)))
     = prompt ++ area_line (shown (area f)).
Proof.
  intros H1 H2. rewrite (ex1_stdout r1 f in1 H1), (ex1_stdout r2 f in2 H2).
  split; reflexivity.
Qed.

Lemma ex1_deterministic_witness :
  stdout (fst (ex1_main (float_of_int 7) (initial [Num (float_literal 254 100); Junk])))
  = stdout (fst (ex1_main S754_nan (initial [Num (float_literal 254 100)])))
  /\ stdout (fst (ex1_main (float_of_int 7) (initial [Num (float_literal 254 100); Junk])))
     = prompt ++ area_line (shown (area (float_literal 254 100))).
Proof.
  apply (ex1_deterministic (float_of_int 7) S754_nan (float_literal 254 100));
    reflexivity.
Defined.

(** ** ex3.c: entering and leaving the loop *)

(** C4.  The first test of [r != 0] in ex3.c is made on the initial,
    never assigned value of [r].  When that value compares equal to zero
    the program ends at once with status 0 and no event at all (no prompt,
    no read, no result); when it does not, the first thing the program
    does is prompt and read.  So any prompt, read or result of ex3.c
    presupposes a non-zero initial value. *)
Theorem ex3_entry_condition (fuel : nat) (r0 : binary32) (input : list scan_item) :
  (float_ne r0 (float_of_int 0) = false ->
   ex3_main (S fuel) r0 (initial input) = Some (initial input, 0))
  /\ (float_ne r0 (float_of_int 0) = true ->
      ex3_loop (S fuel) r0 (initial input)
      = ex3_loop fuel (first_read r0 input) (snd (ex3_body r0 (initial input)))
      /\ forall w', ex3_loop (S fuel) r0 (initial input) = Some w' ->
           exists more,
             log w' = Printed prompt :: Scanned (first_stored input) :: more)
  /\ (forall w', ex3_loop (S fuel) r0 (initial input) = Some w' ->
        log w' <> [] -> float_ne r0 (float_of_int 0) = true).
Proof.
  unfold ex3_main, initial. cbn [ex3_loop].
  destruct (float_ne r0 (float_of_int 0)) eqn:E.
  - split; [discriminate|]. split; [|reflexivity].
    intros _. rewrite ex3_body_run. cbn [snd]. split; [reflexivity|].
    intros w' H. apply ex3_loop_extends in H. destruct H as [more H].
    cbn in H. eexists; exact H.
  - split; [reflexivity|]. split; [discriminate|].
    intros w' H. inversion H; subst; cbn. congruence.
Qed.

Lemma ex3_entry_condition_witness :
  ex3_main 1 (S754_zero false) (initial [Num (float_literal 254 100)])
  = Some (initial [Num (float_literal 254 100)], 0)
  /\ exists more,
       log (mkWorld []
              [Printed prompt; Scanned (Some (S754_zero false));
               Printed (area_line "0.00"); Printed (circumference_line "0.00")])
       = Printed prompt :: Scanned (Some (S754_zero false)) :: more.
Proof.
  split.
  - apply (proj1 (ex3_entry_condition 0 (S754_zero false)
                    [Num (float_literal 254 100)])).
    reflexivity.
  - apply (proj2 (proj1 (proj2 (ex3_entry_condition 1 (float_of_int 1)
                                  [Num (S754_zero false)]))
                    eq_refl)).
    reflexivity.
Defined.

Lemma float_ne_zero_shown (z : binary32) :
  float_ne z (float_of_int 0) = false ->
  shown (area z) = "0.00"
  /\ (shown (circumference z) = "0.00" \/ shown (circumference z) = "-0.00").
Proof.
  intros H. apply float_ne_zero_false in H. destruct H as [s ->].
  rewrite area_of_zero, circumference_of_zero.
  split; [reflexivity|]. destruct s; [right|left]; reflexivity.
Qed.

(** C3, as the code behaves.  When a pass of the loop of ex3.c reads a
    radius that compares equal to zero, that pass still prints the area
    line and the circumference line for it (the area as 0.00, the
    circumference as 0.00 or -0.00), and the next test of [r != 0] then
    ends the program with status 0, without another prompt or read.  A
    radius that does not compare equal to zero sends the loop into
    another pass.  The loop is assumed to have been entered. *)
Theorem ex3_zero_radius_reported_then_stop
        (fuel : nat) (r z : binary32) (rest : list scan_item) (lg : list event) :
  float_ne r (float_of_int 0) = true ->
  let w1 := mkWorld rest
              (lg ++ [Printed prompt;
                      Scanned (Some z);
                      Printed (area_line (shown (area z)));
                      Printed (circumference_line (shown (circumference z)))]) in
  (float_ne z (float_of_int 0) = false ->
   ex3_main (S (S fuel)) r (mkWorld (Num z :: rest) lg) = Some (w1, 0)
   /\ shown (area z) = "0.00"
   /\ (shown (circumference z) = "0.00" \/ shown (circumference z) = "-0.00"))
  /\ (float_ne z (float_of_int 0) = true ->
      ex3_loop (S (S fuel)) r (mkWorld (Num z :: rest) lg)
      = ex3_loop fuel (fst (ex3_body z w1)) (snd (ex3_body z w1))).
Proof.
  intros Hr w1. unfold ex3_main. cbn [ex3_loop]. rewrite Hr.
  rewrite ex3_body_run. cbn [first_read first_stored]. fold w1.
  destruct (float_ne z (float_of_int 0)) eqn:Ez.
  - split; [discriminate|]. intros _. now destruct (ex3_body z w1).
  - split; [|discriminate]. intros _. split; [reflexivity|].
    now apply float_ne_zero_shown.
Qed.

Lemma ex3_zero_radius_reported_then_stop_witness :
  ex3_main 2 (float_of_int 1) (mkWorld [Num (S754_zero false)] [])
  = Some (mkWorld []
            [Printed prompt; Scanned (Some (S754_zero false));
             Printed (area_line "0.00"); Printed (circumference_line "0.00")], 0).
Proof.
  apply (proj1 (ex3_zero_radius_reported_then_stop
                  0 (float_of_int 1) (S754_zero false) [] [] eq_refl)).
  reflexivity.
Defined.

(** C3, as stated, fails: with a non-zero initial [r] and the single
    input 0, ex3.c prints both result lines for the radius 0 before it
    stops, so its output is not the prompt alone. *)
Lemma ex3_zero_radius_prints_results :
  exists w',
    ex3_loop 2 (float_of_int 1) (initial [Num (float_of_int 0)]) = Some w'
    /\ stdout w' = prompt ++ area_line "0.00" ++ circumference_line "0.00"
    /\ stdout w' <> prompt.
Proof.
  eexists. split; [reflexivity|]. split; [reflexivity|]. discriminate.
Qed.

(** ** The sample radii *)

(** C6.  For the input 2.54 both programs print the area 3.14, and the
    stored area is within 0.01 of 3.14159; for the input 5.08 they
    print the area 12.57 and ex3.c prints the circumference 12.57, both
    stored values being within 0.01 of 12.57. *)
Theorem sample_radii (r0 : binary32) :
  let r1 := float_literal 254 100 in
  let r2 := float_literal 508 100 in
  stdout (fst (ex1_main r0 (initial [Num r1]))) = prompt ++ area_line "3.14"
  /\ stdout (fst (ex1_main r0 (initial [Num r2]))) = prompt ++ area_line "12.57"
  /\ ex3_main 4 (float_of_int 1)
       (initial [Num r1; Num r2; Num (float_of_int 0)])
     = Some (mkWorld []
               [Printed prompt; Scanned (Some r1);
                Printed (area_line "3.14"); Printed (circumference_line "6.28");
                Printed prompt; Scanned (Some r2);
                Printed (area_line "12.57"); Printed (circumference_line "12.57");
                Printed prompt; Scanned (Some (S754_zero false));
                Printed (area_line "0.00"); Printed (circumference_line "0.00")],
             0)
  /\ (Qabs (SF2Q (area r1) - (314159 # 100000)) <= 1 # 100)%Q
  /\ (Qabs (printed_value (area r1) - (314159 # 100000)) <= 1 # 100)%Q
  /\ (Qabs (SF2Q (area r2) - (1257 # 100)) <= 1 # 100)%Q
  /\ (Qabs (printed_value (area r2) - (1257 # 100)) <= 1 # 100)%Q
  /\ (Qabs (SF2Q (circumference r2) - (1257 # 100)) <= 1 # 100)%Q
  /\ (Qabs (printed_value (circumference r2) - (1257 # 100)) <= 1 # 100)%Q.
Proof.
  intros r1 r2.
  split; [now rewrite (ex1_stdout r0 r1)|].
  split; [now rewrite (ex1_stdout r0 r2)|].
  split; [reflexivity|].
  repeat split; vm_compute; discriminate.
Qed.

(** ** Signs *)

Local Close Scope string_scope.

Lemma has_sign_mk_float (prec emax : Z) (s : bool) (m e : Z) :
  0 <= m -> has_sign s (mk_float prec emax s m e) = true.
Proof.
  intros Hm. unfold mk_float. destruct m as [|p|p]; try lia.
  - cbn. apply eqb_reflx.
  - destruct (e <=? emax - prec); cbn; apply eqb_reflx.
Qed.

Lemma SFmul_finite_sign (prec emax : Z) (sx : bool) (mx : positive) (ex : Z)
                        (sy : bool) (my : positive) (ey : Z) :
  0 < prec ->
  has_sign (xorb sx sy)
    (SFmul prec emax (S754_finite sx mx ex) (S754_finite sy my ey)) = true.
Proof.
  intros Hp.
  destruct (binary_round_aux_spec prec emax Hp (xorb sx sy) (Zpos (mx * my))
              (ex + ey) loc_Exact (inject_Z (Zpos (mx * my))) ltac:(lia)
              ltac:(unfold located; cbn; reflexivity))
    as (m & e & M0 & Eq & _).
  change (SFmul prec emax (S754_finite sx mx ex) (S754_finite sy my ey))
    with (binary_round_aux prec emax (xorb sx sy) (Zpos (mx * my)) (ex + ey) loc_Exact).
  rewrite Eq. now apply has_sign_mk_float.
Qed.

Lemma SFdiv_finite_sign (prec emax : Z) (sx : bool) (mx : positive) (ex : Z)
                        (sy : bool) (my : positive) (ey : Z) :
  0 < prec ->
  has_sign (xorb sx sy)
    (SFdiv prec emax (S754_finite sx mx ex) (S754_finite sy my ey)) = true.
Proof.
  intros Hp.
  set (D := Zdigits2 (Zpos mx) + ex - (Zdigits2 (Zpos my) + ey)).
  set (e' := Z.min (fexp prec emax D) (ex - ey)).
  set (s := ex - ey - e').
  change (SFdiv prec emax (S754_finite sx mx ex) (S754_finite sy my ey))
    with (let '(mz, ez, lz) :=
            let '(q, r) :=
              Z.div_eucl match s with
                         | Zpos _ => Z.shiftl (Zpos mx) s
                         | Z0 => Zpos mx
                         | Zneg _ => 0
                         end (Zpos my) in
            (q, e', new_location (Zpos my) r) in
          binary_round_aux prec emax (xorb sx sy) mz ez lz).
  assert (Hs : 0 <= s) by (subst s e'; lia).
  rewrite (div_shift (Zpos mx) s Hs).
  pose proof (Z_div_mod (Zpos mx * 2 ^ s) (Zpos my) eq_refl) as DM.
  destruct (Z.div_eucl (Zpos mx * 2 ^ s) (Zpos my)) as [q r].
  destruct DM as [DM1 DM2].
  assert (Hq : 0 <= q).
  { assert (0 <= Zpos mx * 2 ^ s).
    { apply Z.mul_nonneg_nonneg; [lia|apply Z.pow_nonneg; lia]. }
    nia. }
  pose proof (new_location_located q (Zpos my) r ltac:(lia) DM2) as Loc.
  destruct (binary_round_aux_spec prec emax Hp (xorb sx sy) q e'
              (new_location (Zpos my) r) _ Hq Loc) as (m & e & M0 & Eq & _).
  rewrite Eq. now apply has_sign_mk_float.
Qed.

Lemma binary_round_sign (prec emax : Z) (s : bool) (m : positive) (e : Z) :
  0 < prec -> has_sign s (binary_round prec emax s m e) = true.
Proof.
  intros Hp.
  destruct (binary_round_spec prec emax Hp s m e) as (m' & e' & M0 & Eq & _).
  rewrite Eq. now apply has_sign_mk_float.
Qed.

Lemma double_of_float_sign (s : bool) (x : binary32) :
  has_sign s x = true -> has_sign s (double_of_float x) = true.
Proof.
  destruct x as [s1|s1| |s1 m e]; cbn [double_of_float]; auto.
  intros H. cbn [has_sign] in H. apply eqb_prop in H. subst s1.
  unfold binary_normalize. destruct s; cbn [cond_Zopp];
    apply binary_round_sign; reflexivity.
Qed.

Lemma float_of_double_sign (s : bool) (x : binary64) :
  has_sign s x = true -> has_sign s (float_of_double x) = true.
Proof.
  destruct x as [s1|s1| |s1 m e]; cbn [float_of_double]; auto.
  intros H. cbn [has_sign] in H. apply eqb_prop in H. subst s1.
  unfold binary_normalize. destruct s; cbn [cond_Zopp];
    apply binary_round_sign; reflexivity.
Qed.

(** The quotient by [CM] keeps the sign and the kind of its operand. *)
Lemma inch_radius_sign (s : bool) (r : binary32) :
  has_sign s r = true -> has_sign s (inch_radius r) = true.
Proof.
  intros H. apply double_of_float_sign in H.
  unfold inch_radius, ddiv. destruct (double_of_float r) as [s1|s1| |s1 m e];
    try discriminate; cbn [has_sign] in H; apply eqb_prop in H; subst s1.
  - cbn. rewrite xorb_false_r. apply eqb_reflx.
  - cbn. rewrite xorb_false_r. apply eqb_reflx.
  - pose proof (SFdiv_finite_sign Fmt.prec64 Fmt.emax64 s m e
                  false 5719571526760530 (-51) ltac:(reflexivity)) as S.
    rewrite xorb_false_r in S. exact S.
Qed.

(** A product [k * x] or [(k * x) * x] with a positive finite [k] is never
    a NaN, whatever [x] of a definite sign. *)
Lemma scaled_sign (k : positive) (ke : Z) (s : bool) (x : binary64) :
  has_sign s x = true ->
  has_sign s (dmul (S754_finite false k ke) x) = true
  /\ has_sign false (dmul (dmul (S754_finite false k ke) x) x) = true.
Proof.
  intros Hx.
  destruct x as [s1|s1| |s1 m e]; try discriminate;
    cbn [has_sign] in Hx; apply eqb_prop in Hx; subst s1.
  - cbn. rewrite xorb_nilpotent. split; [apply eqb_reflx|reflexivity].
  - cbn. rewrite xorb_nilpotent. split; [apply eqb_reflx|reflexivity].
  - pose proof (SFmul_finite_sign Fmt.prec64 Fmt.emax64 false k ke s m e
                  ltac:(reflexivity)) as S1.
    rewrite xorb_false_l in S1. unfold dmul.
    split; [exact S1|].
    destruct (SFmul Fmt.prec64 Fmt.emax64 (S754_finite false k ke)
                (S754_finite s m e)) as [s2|s2| |s2 m2 e2]; try discriminate;
      cbn [has_sign] in S1; apply eqb_prop in S1; subst s2.
    + cbn. now rewrite xorb_nilpotent.
    + cbn. now rewrite xorb_nilpotent.
    + pose proof (SFmul_finite_sign Fmt.prec64 Fmt.emax64 s m2 e2 s m e
                    ltac:(reflexivity)) as S2.
      rewrite xorb_nilpotent in S2. exact S2.
Qed.

Lemma float_nonneg_iff (x : binary32) :
  float_nonneg x = true
  <-> (exists s, x = S754_zero s) \/ has_sign false x = true.
Proof.
  split.
  - destruct x as [s|s| |s m e]; cbn; intros H.
    + left. now exists s.
    + right. destruct s; [discriminate|reflexivity].
    + discriminate.
    + right. destruct s; [discriminate|reflexivity].
  - intros [[s ->]|H]; [reflexivity|].
    destruct x as [s|s| |s m e]; try discriminate; destruct s; try discriminate;
      reflexivity.
Qed.

Local Open Scope string_scope.

(** ** The printed text *)











Lemma float_of_double_sized (z : binary64) : float_sized (float_of_double z).
Proof.
  destruct z as [s|s| |s m e]; try exact I.
  destruct (float_of_double_correct s m e) as [Inf|(_ & F & _)].
  - rewrite Inf. exact I.
  - exact F.
Qed.



(** ** The computed values *)

Lemma valid_float_sized (r : binary32) :
  valid_binary Fmt.prec32 Fmt.emax32 r = true -> float_sized r.
Proof.
  destruct r as [s|s| |s m e]; try (intros; exact I).
  intros H. exact (valid_float_bounds s m e H).
Qed.

Lemma exact_area_nonneg (x : Q) : (0 <= exact_area x)%Q.
Proof.
  unfold exact_area. apply Qmult_le_0_compat; [discriminate|apply Qsqr_nonneg].
Qed.

Lemma exact_area_zero : (exact_area 0 == 0)%Q.
Proof. reflexivity. Qed.


(** The stored area of a number of type [float]. *)
Lemma area_accuracy (r : binary32) :
  valid_binary Fmt.prec32 Fmt.emax32 r = true -> is_number r = true ->
  (area r = S754_infinity false
   \/ (is_number (area r) = true
       /\ (Qabs (SF2Q (area r) - exact_area (SF2Q r))
           <= pow2 (-23) * exact_area (SF2Q r) + pow2 (-150))%Q))
  /\ ((Qabs (SF2Q r) <= pow2 62)%Q -> is_number (area r) = true).
Proof.
  intros V N. destruct r as [s|s| |s m e]; try discriminate.
  - rewrite area_of_zero. split; [right|]; [split|]; try reflexivity.
    cbn [SF2Q]. rewrite exact_area_zero. discriminate.
  - destruct (area_correct s m e (valid_float_sized _ V)) as [A B].
    rewrite (Qabs_pos (exact_area _)) in A by apply exact_area_nonneg.
    split.
    + destruct A as [A|(A1 & _ & A2)]; [left; exact A|right; split; assumption].
    + intros H. specialize (B H).
      destruct A as [A|(A1 & _)]; [contradiction|exact A1].
Qed.






(** C7.  For every radius [r] that is a number of type [float], the
    conversion to inches [r / CM] followed by the conversion back
    [(r / CM) * CM], both in [double], is a number that equals [r] up to a
    relative error of 2^-51 (four units roundoff of [double]). *)
Theorem inches_round_trip (r : binary32) :
  valid_binary Fmt.prec32 Fmt.emax32 r = true ->
  is_number r = true ->
  is_number (inches_to_cm (inch_radius r)) = true
  /\ rel_err (pow2 (-51)) (SF2Q (inches_to_cm (inch_radius r))) (SF2Q r).
Proof.
  intros V N. destruct r as [s|s| |s m e]; try discriminate.
  - destruct s; (split; [reflexivity|]); unfold rel_err; cbn; discriminate.
  - destruct (roundtrip_finite s m e (valid_float_sized _ V)) as (mb & eb & Eq & R).
    split; [now rewrite Eq|exact R].
Qed.

Lemma inches_round_trip_witness :
  is_number (inches_to_cm (inch_radius (float_literal 254 100))) = true
  /\ rel_err (pow2 (-51))
       (SF2Q (inches_to_cm (inch_radius (float_literal 254 100))))
       (SF2Q (float_literal 254 100)).
Proof.
  apply (inches_round_trip (float_literal 254 100)); reflexivity.
Defined.

(** C8.  For every radius [r] with [0 <= r] (zeros of either sign,
    positive finite values and plus infinity), the stored area and the
    stored circumference satisfy [0 <= a] and [0 <= c]. *)
Theorem nonneg_radius_nonneg_results (r : binary32) :
  float_nonneg r = true ->
  float_nonneg (area r) = true /\ float_nonneg (circumference r) = true.
Proof.
  intros H. apply float_nonneg_iff in H. destruct H as [[s ->]|H].
  - rewrite area_of_zero, circumference_of_zero. split; reflexivity.
  - apply inch_radius_sign in H.
    split; apply float_nonneg_iff; right; apply float_of_double_sign.
    + unfold area_double. fold (inch_radius r).
      change PI with (S754_finite false 7074231776675438 (-51)).
      exact (proj2 (scaled_sign _ _ _ _ H)).
    + unfold circumference_double. fold (inch_radius r). rewrite two_PI.
      exact (proj1 (scaled_sign _ _ _ _ H)).
Qed.

Lemma nonneg_radius_nonneg_results_witness :
  float_nonneg (area (float_literal 254 100)) = true
  /\ float_nonneg (circumference (float_literal 254 100)) = true.
Proof.
  apply (nonneg_radius_nonneg_results (float_literal 254 100)). reflexivity.
Defined.

(** ** The format of the output *)




(** * Further properties of the two programs *)

(** ** Whole runs of ex3.c *)

Lemma ex3_loop_zero_terminated (z : binary32) (rest : list scan_item) :
  float_ne z (float_of_int 0) = false ->
  forall rs r lg fuel,
    nonzero r -> Forall nonzero rs -> (List.length rs + 2 <= fuel)%nat ->
    ex3_loop fuel r (mkWorld (map Num rs ++ Num z :: rest) lg)
    = Some (mkWorld rest (lg ++ flat_map pass_events (rs ++ [z]))).
Proof.
  intros Hz. induction rs as [|a rs IH]; intros r lg fuel Hr Hrs Hf.
  - destruct fuel as [|[|fuel]]; cbn in Hf; try lia.
    cbn [ex3_loop map app]. rewrite Hr, ex3_body_run. cbn [first_read].
    rewrite Hz. cbn [flat_map]. now rewrite app_nil_r.
  - destruct fuel as [|fuel]; cbn in Hf; try lia.
    inversion Hrs as [|? ? Ha Hrs']; subst.
    cbn [ex3_loop map app]. rewrite Hr, ex3_body_run. cbn [first_read].
    rewrite (IH a _ fuel Ha Hrs' ltac:(lia)).
    cbn [flat_map app]. now rewrite <- app_assoc.
Qed.

(** X1.  When the initial [r] is non-zero and standard input holds
    numbers that are all non-zero followed by a number that compares
    equal to zero, ex3.c terminates with status 0: it makes one pass per
    number up to and including the zero, reports each of them, and leaves
    what follows the zero unread.  A bound of two more than the count of
    non-zero numbers suffices. *)
Theorem ex3_terminates_at_first_zero
        (r0 z : binary32) (rs : list binary32) (rest : list scan_item)
        (lg : list event) (fuel : nat) :
  nonzero r0 -> Forall nonzero rs ->
  float_ne z (float_of_int 0) = false ->
  (List.length rs + 2 <= fuel)%nat ->
  ex3_main fuel r0 (mkWorld (map Num rs ++ Num z :: rest) lg)
  = Some (mkWorld rest (lg ++ flat_map pass_events (rs ++ [z])), 0).
Proof.
  intros Hr Hrs Hz Hf. unfold ex3_main.
  now rewrite (ex3_loop_zero_terminated z rest Hz rs r0 lg fuel Hr Hrs Hf).
Qed.

Lemma ex3_terminates_at_first_zero_witness :
  ex3_main 3 (float_of_int 1)
    (mkWorld (map Num [float_literal 254 100] ++ Num (S754_zero true) :: [Junk]) [])
  = Some (mkWorld [Junk]
            ([] ++ flat_map pass_events ([float_literal 254 100] ++ [S754_zero true])),
          0).
Proof.
  apply (ex3_terminates_at_first_zero (float_of_int 1) (S754_zero true)
           [float_literal 254 100] [Junk] [] 3).
  - reflexivity.
  - repeat constructor.
  - reflexivity.
  - cbn. lia.
Defined.







(** ** ex1.c when the read fails *)



(** ** Negative radii *)

Local Close Scope string_scope.











Lemma has_sign_not_nan (s : bool) (x : spec_float) :
  has_sign s x = true -> x <> S754_nan.
Proof. intros H ->. discriminate H. Qed.

Lemma not_nan_has_sign (x : spec_float) :
  x <> S754_nan -> exists s, has_sign s x = true.
Proof.
  destruct x as [s|s| |s m e]; intros H; try (exists s; cbn; apply eqb_reflx).
  now contradiction H.
Qed.

Lemma area_sign (s : bool) (r : binary32) :
  has_sign s r = true -> has_sign false (area r) = true.
Proof.
  intros H. apply inch_radius_sign in H. apply float_of_double_sign.
  unfold area_double. fold (inch_radius r).
  change PI with (S754_finite false 7074231776675438 (-51)).
  exact (proj2 (scaled_sign _ _ _ _ H)).
Qed.

Lemma circumference_sign (s : bool) (r : binary32) :
  has_sign s r = true -> has_sign s (circumference r) = true.
Proof.
  intros H. apply inch_radius_sign in H. apply float_of_double_sign.
  unfold circumference_double. fold (inch_radius r). rewrite two_PI.
  exact (proj1 (scaled_sign _ _ _ _ H)).
Qed.

(** X6.  The stored area is a NaN exactly when the radius is a NaN, and
    so is the stored circumference.  For every other radius, negative
    ones included, the area satisfies [0 <= a] and has a clear sign bit,
    and the circumference has the sign bit of the radius. *)
Theorem results_nan_and_sign (r : binary32) :
  (area r = S754_nan <-> r = S754_nan)
  /\ (circumference r = S754_nan <-> r = S754_nan)
  /\ (r <> S754_nan ->
      float_nonneg (area r) = true /\ has_sign false (area r) = true)
  /\ (forall s, has_sign s r = true -> has_sign s (circumference r) = true).
Proof.
  assert (A : r <> S754_nan -> has_sign false (area r) = true).
  { intros H. destruct (not_nan_has_sign r H) as [s Hs]. exact (area_sign s r Hs). }
  split; [|split; [|split]].
  - split; [|intros ->; reflexivity].
    intros H. destruct r as [s|s| |s m e]; try reflexivity;
      exfalso; refine (has_sign_not_nan false _ (A _) H); discriminate.
  - split; [|intros ->; reflexivity].
    intros H. destruct r as [s|s| |s m e]; try reflexivity; exfalso;
      refine (has_sign_not_nan s _ (circumference_sign s _ _) H);
      cbn; apply eqb_reflx.
  - intros H. split; [|exact (A H)].
    apply float_nonneg_iff. right. exact (A H).
  - intros s. apply circumference_sign.
Qed.

Lemma results_nan_and_sign_witness :
  float_nonneg (area (float_literal (-254) 100)) = true
  /\ has_sign false (area (float_literal (-254) 100)) = true.
Proof.
  apply (proj1 (proj2 (proj2 (results_nan_and_sign (float_literal (-254) 100))))).
  discriminate.
Defined.

Local Open Scope string_scope.

(** ** Overflow of the [float] results *)

Local Close Scope string_scope.

Lemma binary_round_overflow (prec emax : Z) (s : bool) (m : positive) (e : Z) :
  0 < prec -> 2 <= emax ->
  (pow2 emax <= inject_Z (Zpos m) * pow2 e)%Q ->
  binary_round prec emax s m e = S754_infinity s.
Proof.
  intros Hp He Hv.
  destruct (binary_round_spec prec emax Hp s m e)
    as (m' & e' & M0 & Eq & Hb & _ & Herr & _).
  pose proof (mantissa_band (Zpos m) e ltac:(lia)) as [Bl Bu].
  set (M := Zdigits2 (Zpos m) + e) in *.
  assert (HM : emax < M).
  { apply pow2_lt_inv. eapply Qle_lt_trans; [exact Hv|exact Bu]. }
  assert (FM : fexp prec emax M = M - prec).
  { unfold fexp, emin. lia. }
  rewrite FM in *.
  rewrite Eq. unfold mk_float. destruct m' as [|p|p]; try lia.
  - exfalso. change (inject_Z 0) with 0%Q in Herr.
    replace (Zdigits2 (Zpos m) - 1 + e) with (M - 1) in Bl by (subst M; ring).
    pose proof (pow2_pos (M - 1)) as P1.
    setoid_replace (0 * pow2 e' - inject_Z (Zpos m) * pow2 e)%Q
      with (- (inject_Z (Zpos m) * pow2 e))%Q in Herr by ring.
    rewrite Qabs_opp, Qabs_pos in Herr by lra.
    assert (L : (pow2 (M - 1) <= pow2 (M - prec - 1))%Q).
    { rewrite (pow2_pred (M - prec)). unfold Qdiv. change (/ 2)%Q with (1 # 2)%Q.
      lra. }
    apply pow2_le_inv in L. lia.
  - replace (e' <=? emax - prec) with false; [reflexivity|].
    symmetry. apply Z.leb_gt. lia.
Qed.

Lemma float_of_double_overflow (s : bool) (m : positive) (e : Z) :
  (pow2 128 <= Qabs (SF2Q (S754_finite s m e)))%Q ->
  float_of_double (S754_finite s m e) = S754_infinity s.
Proof.
  intros H. rewrite SF2Q_abs in H.
  assert (Eq : float_of_double (S754_finite s m e)
               = binary_round Fmt.prec32 Fmt.emax32 s m e).
  { unfold float_of_double, binary_normalize. destruct s; reflexivity. }
  rewrite Eq. apply binary_round_overflow;
    [reflexivity|unfold Fmt.emax32; lia|exact H].
Qed.

Local Open Scope Q_scope.

(** Bounds on an approximation with a relative error of at most 1%. *)
Lemma rel_err_within_1_percent (eps x v : Q) :
  eps <= 1 # 100 -> rel_err eps x v ->
  (99 # 100) * Qabs v <= Qabs x /\ Qabs x <= (101 # 100) * Qabs v.
Proof.
  intros He R. apply (rel_err_weaken _ _ _ _ He) in R. unfold rel_err in R.
  assert (T1 : Qabs v <= Qabs x + Qabs (x - v)).
  { setoid_replace v with (x + - (x - v)) at 1 by ring.
    eapply Qle_trans; [apply Qabs_triangle|]. rewrite Qabs_opp. apply Qle_refl. }
  assert (T2 : Qabs x <= Qabs v + Qabs (x - v)).
  { setoid_replace x with (v + (x - v)) at 1 by ring. apply Qabs_triangle. }
  split; lra.
Qed.

Lemma exact_area_scaled (x : Q) :
  exact_area x == (PI_decimal / (CM_decimal * CM_decimal)) * (x * x).
Proof.
  unfold exact_area.
  change ((x / CM_decimal) ^ 2) with ((x / CM_decimal) * (x / CM_decimal)).
  field. discriminate.
Qed.

Lemma exact_circumference_scaled (x : Q) :
  exact_circumference x == (2 * PI_decimal / CM_decimal) * x.
Proof. unfold exact_circumference. field. discriminate. Qed.

Lemma Qabs_square_le (x b : Q) : 0 <= b -> Qabs x <= b -> x * x <= b * b.
Proof.
  intros Hb H.
  assert (E : x * x == Qabs x * Qabs x).
  { rewrite <- Qabs_Qmult. symmetry. apply Qabs_pos.
    setoid_replace (x * x) with (x ^ 2) by reflexivity. apply Qsqr_nonneg. }
  rewrite E. pose proof (Qabs_nonneg x).
  apply Qmult_le_compat_nonneg; lra.
Qed.

Lemma Qabs_square_ge (x b : Q) : 0 <= b -> b <= Qabs x -> b * b <= x * x.
Proof.
  intros Hb H.
  assert (E : x * x == Qabs x * Qabs x).
  { rewrite <- Qabs_Qmult. symmetry. apply Qabs_pos.
    setoid_replace (x * x) with (x ^ 2) by reflexivity. apply Qsqr_nonneg. }
  rewrite E. apply Qmult_le_compat_nonneg; lra.
Qed.

Local Close Scope Q_scope.

(** X7.  The only overflow is in the store to the [float] variables, and
    it is silent.  For a radius that is a number of type [float]: the
    stored area is a number whenever |r| <= 2^64, and it is plus infinity,
    printed as [inf], whenever |r| >= 2^65; the stored circumference is
    the infinity with the sign of the radius, printed as [inf] or [-inf],
    whenever |r| >= 2^127. *)
Theorem float_overflow_thresholds (r : binary32) :
  valid_binary Fmt.prec32 Fmt.emax32 r = true ->
  is_number r = true ->
  ((Qabs (SF2Q r) <= pow2 64)%Q -> is_number (area r) = true)
  /\ ((pow2 65 <= Qabs (SF2Q r))%Q ->
      area r = S754_infinity false /\ shown (area r) = "inf"%string)
  /\ (forall s, has_sign s r = true -> (pow2 127 <= Qabs (SF2Q r))%Q ->
        circumference r = S754_infinity s
        /\ shown (circumference r) = (sign_string s ++ "inf")%string).
Proof.
  intros V N. destruct r as [s0|s0| |s0 m e]; try discriminate.
  { (* a zero *)
    rewrite area_of_zero. cbn [SF2Q]. change (Qabs 0) with 0%Q.
    split; [reflexivity|]. split.
    - intros H. exfalso. pose proof (pow2_pos 65). lra.
    - intros s _ H. exfalso. pose proof (pow2_pos 127). lra. }
  pose proof (valid_float_sized _ V) as F.
  set (r := S754_finite s0 m e) in *.
  destruct (area_double_correct s0 m e F) as (mz & ez & Ez & Rz & _).
  fold r in Ez, Rz.
  destruct (rel_err_within_1_percent (15 * u64) _ _ ltac:(closed_Qle) Rz)
    as [Lo Hi].
  rewrite (Qabs_pos (exact_area _)) in Lo, Hi by apply exact_area_nonneg.
  rewrite exact_area_scaled in Lo, Hi.
  split; [|split].
  - intros H.
    assert (NI : area r <> S754_infinity false).
    { unfold area. rewrite Ez in *. apply float_of_double_finite.
      pose proof (Qabs_square_le (SF2Q r) (pow2 64) ltac:(discriminate) H) as S2.
      rewrite <- pow2_add in S2. change (64 + 64) with 128 in S2.
      assert (K : (PI_decimal / (CM_decimal * CM_decimal) * (SF2Q r * SF2Q r)
                   <= (49 # 100) * pow2 128)%Q).
      { apply Qmult_le_compat_nonneg; try lra; try closed_Qle.
        setoid_replace (SF2Q r * SF2Q r)%Q with (SF2Q r ^ 2)%Q by reflexivity.
        apply Qsqr_nonneg. }
      assert (P : (pow2 127 == (1 # 2) * pow2 128)%Q) by reflexivity.
      rewrite P. pose proof (pow2_pos 128). lra. }
    destruct (proj1 (area_correct s0 m e F)) as [A|(A & _)];
      [contradiction|exact A].
  - intros H.
    assert (AI : area r = S754_infinity false).
    { unfold area. rewrite Ez in *. apply float_of_double_overflow.
      pose proof (Qabs_square_ge (SF2Q r) (pow2 65) ltac:(discriminate) H) as S2.
      rewrite <- pow2_add in S2. change (65 + 65) with 130 in S2.
      assert (K : ((2 # 5) * pow2 130
                   <= PI_decimal / (CM_decimal * CM_decimal) * (SF2Q r * SF2Q r))%Q).
      { pose proof (pow2_pos 130).
        apply Qmult_le_compat_nonneg; try lra; try closed_Qle. }
      assert (P : (pow2 130 == 4 * pow2 128)%Q) by reflexivity.
      rewrite P in K. pose proof (pow2_pos 128). lra. }
    split; [exact AI|]. rewrite AI. reflexivity.
  - intros s Hs H. cbn [has_sign] in Hs. apply eqb_prop in Hs. subst s0.
    destruct (circumference_double_correct s m e F) as (mc & ec & Ec & Rc & _).
    fold r in Ec, Rc.
    destruct (rel_err_within_1_percent (8 * u64) _ _ ltac:(closed_Qle) Rc)
      as [Lc _].
    rewrite exact_circumference_scaled, Qabs_Qmult in Lc.
    change (Qabs (2 * PI_decimal / CM_decimal))
      with (2 * PI_decimal / CM_decimal)%Q in Lc.
    assert (CI : circumference r = S754_infinity s).
    { unfold circumference. rewrite Ec in *. apply float_of_double_overflow.
      assert (K : ((12 # 5) * pow2 127
                   <= 2 * PI_decimal / CM_decimal * Qabs (SF2Q r))%Q).
      { pose proof (pow2_pos 127).
        apply Qmult_le_compat_nonneg; try lra; try closed_Qle. }
      assert (P : (pow2 128 == 2 * pow2 127)%Q) by reflexivity.
      rewrite P. pose proof (pow2_pos 127). lra. }
    split; [exact CI|]. rewrite CI. destruct s; reflexivity.
Qed.

Lemma float_overflow_thresholds_witness :
  area (S754_finite false 8388608 42) = S754_infinity false
  /\ shown (area (S754_finite false 8388608 42)) = "inf"%string.
Proof.
  apply (proj1 (proj2 (float_overflow_thresholds (S754_finite false 8388608 42)
                         eq_refl eq_refl))).
  apply Qle_bool_iff. vm_compute. reflexivity.
Defined.

Local Open Scope string_scope.

(** ** Accuracy of the printed numbers *)

Local Close Scope string_scope.

Lemma round_half_even_spec (n d : Z) :
  0 <= n -> 0 < d ->
  0 <= round_half_even n d
  /\ (Qabs (inject_Z (round_half_even n d) - inject_Z n / inject_Z d) <= 1 # 2)%Q.
Proof.
  intros Hn Hd.
  pose proof (Z.div_mod n d ltac:(lia)) as DM.
  pose proof (Z.mod_pos_bound n d Hd) as MB.
  assert (Hq : 0 <= n / d) by (apply Z.div_pos; lia).
  assert (Qd : (0 < inject_Z d)%Q).
  { change 0%Q with (inject_Z 0). rewrite <- Zlt_Qlt. exact Hd. }
  set (x := (inject_Z (n mod d) / inject_Z d)%Q).
  assert (E : (inject_Z n / inject_Z d == inject_Z (n / d) + x)%Q).
  { subst x. rewrite DM at 1. rewrite inject_Z_plus, inject_Z_mult. field. lra. }
  assert (X0 : (0 <= x)%Q).
  { subst x. apply Qle_shift_div_l; [exact Qd|]. rewrite Qmult_0_l.
    change 0%Q with (inject_Z 0). rewrite <- Zle_Qle. lia. }
  assert (Xlt : 2 * (n mod d) < d -> (x < 1 # 2)%Q).
  { intros H. subst x. apply Qlt_shift_div_r; [exact Qd|].
    assert (2 * inject_Z (n mod d) < inject_Z d)%Q; [|lra].
    change 2%Q with (inject_Z 2). rewrite <- inject_Z_mult, <- Zlt_Qlt. exact H. }
  assert (Xgt : d < 2 * (n mod d) -> (1 # 2 < x)%Q).
  { intros H. subst x. apply Qlt_shift_div_l; [exact Qd|].
    assert (inject_Z d < 2 * inject_Z (n mod d))%Q; [|lra].
    change 2%Q with (inject_Z 2). rewrite <- inject_Z_mult, <- Zlt_Qlt. exact H. }
  assert (Xeq : 2 * (n mod d) = d -> (x == 1 # 2)%Q).
  { intros H. subst x. apply Qmult_inj_r with (z := inject_Z d); [lra|].
    assert (2 * inject_Z (n mod d) == inject_Z d)%Q.
    { change 2%Q with (inject_Z 2). rewrite <- inject_Z_mult, H. reflexivity. }
    setoid_replace (inject_Z (n mod d) / inject_Z d * inject_Z d)%Q
      with (inject_Z (n mod d)) by (field; lra).
    lra. }
  assert (X1 : (x < 1)%Q).
  { subst x. apply Qlt_shift_div_r; [exact Qd|]. rewrite Qmult_1_l.
    rewrite <- Zlt_Qlt. lia. }
  unfold round_half_even.
  destruct (Z.compare_spec (2 * (n mod d)) d) as [C|C|C].
  - specialize (Xeq C). destruct (Z.even (n / d)).
    + split; [exact Hq|]. rewrite E. apply Qabs_Qle_condition. lra.
    + split; [lia|]. rewrite E, inject_Z_plus. change (inject_Z 1) with 1%Q.
      apply Qabs_Qle_condition. lra.
  - specialize (Xlt C). split; [exact Hq|]. rewrite E.
    apply Qabs_Qle_condition. lra.
  - specialize (Xgt C). split; [lia|]. rewrite E, inject_Z_plus.
    change (inject_Z 1) with 1%Q. apply Qabs_Qle_condition. lra.
Qed.

(** The hundredths printed for [m * 2^e] are within one half of
    [100 * m * 2^e]. *)
Lemma hundredths_spec (m : positive) (e : Z) :
  0 <= hundredths m e
  /\ (Qabs (inject_Z (hundredths m e) - 100 * (inject_Z (Zpos m) * pow2 e))
      <= 1 # 2)%Q.
Proof.
  assert (Ex : 0 <= e ->
               0 <= 100 * Zpos m * 2 ^ e
               /\ (Qabs (inject_Z (100 * Zpos m * 2 ^ e)
                         - 100 * (inject_Z (Zpos m) * pow2 e)) <= 1 # 2)%Q).
  { intros He. split.
    - assert (0 <= 2 ^ e) by (apply Z.pow_nonneg; lia). nia.
    - rewrite (pow2_Z e He), !inject_Z_mult. change (inject_Z 100) with 100%Q.
      setoid_replace (100 * inject_Z (Zpos m) * inject_Z (2 ^ e)
                      - 100 * (inject_Z (Zpos m) * inject_Z (2 ^ e)))%Q
        with 0%Q by ring.
      discriminate. }
  destruct e as [|p|p]; [apply Ex; lia|apply Ex; lia|].
  cbn [hundredths].
  assert (Pd : 0 < 2 ^ Zpos p) by (apply Z.pow_pos_nonneg; lia).
  destruct (round_half_even_spec (100 * Zpos m) (2 ^ Zpos p) ltac:(lia) Pd)
    as [R0 R1].
  split; [exact R0|].
  assert (E : (100 * (inject_Z (Zpos m) * pow2 (Zneg p))
               == inject_Z (100 * Zpos m) / inject_Z (2 ^ Zpos p))%Q).
  { change (Zneg p) with (- Zpos p). rewrite pow2_opp, (pow2_Z (Zpos p)) by lia.
    rewrite inject_Z_mult. change (inject_Z 100) with 100%Q.
    field. intros C.
    assert (0 < inject_Z (2 ^ Zpos p))%Q; [|lra].
    change 0%Q with (inject_Z 0). rewrite <- Zlt_Qlt. exact Pd. }
  rewrite E. exact R1.
Qed.






Local Open Scope string_scope.

(** ** Radii whose area prints as 0.00 *)

Local Close Scope string_scope.

Lemma hundredths_below_half (m : positive) (e : Z) :
  (inject_Z (Zpos m) * pow2 e < 1 # 200)%Q -> hundredths m e = 0.
Proof.
  intros H. destruct (hundredths_spec m e) as [H0 H1].
  apply Qabs_Qle_condition in H1.
  assert (L : (inject_Z (hundredths m e) < inject_Z 1)%Q).
  { change (inject_Z 1) with 1%Q. lra. }
  rewrite <- Zlt_Qlt in L. lia.
Qed.

(** X9.  For a radius that is a number of type [float] with
    |r| <= 0.1, both programs print the area as [0.00]: the exact area is
    below 0.005 square inches and the two-decimal format rounds it
    away, although such a radius is not zero and does not end the loop of
    ex3.c. *)
Theorem small_radius_area_prints_zero (r : binary32) :
  valid_binary Fmt.prec32 Fmt.emax32 r = true ->
  is_number r = true ->
  (Qabs (SF2Q r) <= 1 # 10)%Q ->
  shown (area r) = "0.00"%string.
Proof.
  intros V N H.
  destruct r as [s|s| |s m e]; try discriminate N.
  { rewrite area_of_zero. reflexivity. }
  set (r := S754_finite s m e) in *.
  assert (H62 : (Qabs (SF2Q r) <= pow2 62)%Q).
  { eapply Qle_trans; [exact H|]. closed_Qle. }
  destruct (area_accuracy r V N) as [A B]. specialize (B H62).
  destruct A as [I|[_ A]]; [rewrite I in B; discriminate|].
  assert (Ex : (exact_area (SF2Q r) <= 49 # 10000)%Q).
  { rewrite exact_area_scaled.
    pose proof (Qabs_square_le (SF2Q r) (1 # 10) ltac:(discriminate) H) as S2.
    assert (0 <= SF2Q r * SF2Q r)%Q.
    { setoid_replace (SF2Q r * SF2Q r)%Q with (SF2Q r ^ 2)%Q by reflexivity.
      apply Qsqr_nonneg. }
    assert (K : (PI_decimal / (CM_decimal * CM_decimal) * (SF2Q r * SF2Q r)
                 <= (49 # 100) * ((1 # 10) * (1 # 10)))%Q).
    { apply Qmult_le_compat_nonneg; try lra; closed_Qle. }
    eapply Qle_trans; [exact K|]. closed_Qle. }
  pose proof (exact_area_nonneg (SF2Q r)) as En.
  assert (T : (pow2 (-23) * exact_area (SF2Q r) <= (1 # 1000) * (49 # 10000))%Q).
  { apply Qmult_le_compat_nonneg; try lra; try closed_Qle; try discriminate. }
  assert (T2 : (pow2 (-150) <= 1 # 100000)%Q) by closed_Qle.
  apply Qabs_Qle_condition in A.
  assert (Small : (SF2Q (area r) < 1 # 200)%Q) by lra.
  pose proof (area_sign s r ltac:(cbn; apply eqb_reflx)) as S.
  pose proof (float_of_double_sized (area_double r)) as F. fold (area r) in F.
  destruct (area r) as [sa|sa| |sa ma ea]; try discriminate B;
    cbn [has_sign] in S; apply eqb_prop in S; subst sa.
  - reflexivity.
  - destruct (double_of_float_exact false ma ea F) as (m' & e' & Eq & Vq).
    rewrite <- Vq, SF2Q_finite in Small. cbn [sgnQ] in Small.
    rewrite Qmult_1_l in Small.
    unfold shown, format_3_2f. rewrite Eq. cbn [format_f2].
    rewrite (hundredths_below_half m' e' Small). reflexivity.
Qed.

Lemma small_radius_area_prints_zero_witness :
  shown (area (float_literal 1 16)) = "0.00"%string.
Proof.
  apply (small_radius_area_prints_zero (float_literal 1 16));
    [reflexivity|reflexivity|].
  apply Qle_bool_iff. vm_compute. reflexivity.
Defined.

(** ** The evaluation in [double] *)

(** X10.  The conversion to inches.  For every radius that is a number of
    type [float], the quotient [r/CM] evaluated in [double] is a number
    (it neither overflows nor underflows) and equals r / 2.54 up to a
    relative error of 2^-51. *)
Theorem inch_radius_accuracy (r : binary32) :
  valid_binary Fmt.prec32 Fmt.emax32 r = true ->
  is_number r = true ->
  is_number (inch_radius r) = true
  /\ rel_err (pow2 (-51)) (SF2Q (inch_radius r)) (SF2Q r / CM_decimal).
Proof.
  intros V N. destruct r as [s|s| |s m e]; try discriminate N.
  - split; [destruct s; reflexivity|].
    unfold rel_err. destruct s; apply Qle_bool_iff; reflexivity.
  - pose proof (valid_float_sized _ V) as F.
    destruct (inch_radius_correct s m e F) as (mx & ex & Ex & _ & _).
    split; [now rewrite Ex|].
    eapply rel_err_weaken; [|exact (inch_radius_decimal s m e F)].
    closed_Qle.
Qed.

Lemma inch_radius_accuracy_witness :
  is_number (inch_radius (float_literal 254 100)) = true
  /\ rel_err (pow2 (-51)) (SF2Q (inch_radius (float_literal 254 100)))
             (SF2Q (float_literal 254 100) / CM_decimal).
Proof.
  apply (inch_radius_accuracy (float_literal 254 100)); reflexivity.
Defined.

(** X11.  The right-hand sides of the two assignments, before the store
    to [float].  For every radius that is a number of type [float] the
    [double] values of [PI * (r/CM) * (r/CM)] and [2 * PI * (r/CM)] are
    numbers, non-zero when the radius is, and equal the exact
    3.14159 * (r / 2.54)^2 and 2 * 3.14159 * (r / 2.54) up to relative
    errors of 2^-49 and 2^-50: in [double] nothing overflows or
    underflows, whatever the [float] radius. *)
Theorem double_evaluation_accuracy (r : binary32) :
  valid_binary Fmt.prec32 Fmt.emax32 r = true ->
  is_number r = true ->
  is_number (area_double r) = true
  /\ rel_err (pow2 (-49)) (SF2Q (area_double r)) (exact_area (SF2Q r))
  /\ is_number (circumference_double r) = true
  /\ rel_err (pow2 (-50)) (SF2Q (circumference_double r))
             (exact_circumference (SF2Q r))
  /\ (~ (SF2Q r == 0)%Q ->
      ~ (SF2Q (area_double r) == 0)%Q
      /\ ~ (SF2Q (circumference_double r) == 0)%Q).
Proof.
  intros V N. destruct r as [s|s| |s m e]; try discriminate N.
  - split; [destruct s; reflexivity|].
    split; [unfold rel_err; destruct s; apply Qle_bool_iff; reflexivity|].
    split; [destruct s; reflexivity|].
    split; [unfold rel_err; destruct s; apply Qle_bool_iff; reflexivity|].
    intros H. exfalso. apply H. reflexivity.
  - pose proof (valid_float_sized _ V) as F.
    destruct (area_double_correct s m e F) as (mz & ez & Ez & Rz & Bz).
    destruct (circumference_double_correct s m e F) as (mc & ec & Ec & Rc & Bc).
    split; [now rewrite Ez|].
    split; [eapply rel_err_weaken; [|exact Rz]; closed_Qle|].
    split; [now rewrite Ec|].
    split; [eapply rel_err_weaken; [|exact Rc]; closed_Qle|].
    intros _. split; eapply in_band_nonzero; eassumption.
Qed.

Lemma double_evaluation_accuracy_witness :
  is_number (area_double (float_literal 254 100)) = true
  /\ rel_err (pow2 (-49)) (SF2Q (area_double (float_literal 254 100)))
             (exact_area (SF2Q (float_literal 254 100))).
Proof.
  pose proof (double_evaluation_accuracy (float_literal 254 100)
                eq_refl eq_refl) as (H1 & H2 & _).
  split; assumption.
Defined.

Local Open Scope string_scope.
